(** * Pagination window of the invoices dashboard

    Shallow embedding of [generatePagination] (app/lib/utils.ts, listed in
    chapter10-search-pagination.md, section 2.2) and proofs of the properties
    its specification states.

    The function receives two JavaScript numbers, a page index and a page
    count, and its specification ranges over integers.  It is embedded
    twice.  [generatePagination] computes with exact integers ([Z]).
    [Binary64.generatePagination] computes with the numbers the program
    has, IEEE 754 binary64 values, whose [+ 1], [- 1] and [- 2] round above
    [2^53].  The two agree on the safe integers, between [-(2^53 - 1)] and
    [2^53 - 1] ([generatePagination_exact]); the statements that depend on
    the arithmetic are made on the second one.

    The second half of the development covers the code around the function:
    the [Search] and [Pagination] components with the URLs they build, the
    key of the invoices page, and the two data-fetching functions.  There a
    page number is an integer: the statements say so where the code can
    receive another number. *)

From Stdlib Require Import ZArith Lia.
From Stdlib Require Import Ascii.
From Stdlib Require Import Floats.SpecFloat.
From stdpp Require Import base numbers list list_numbers sorting strings gmap.
From stdpp Require Import pretty.

Local Open Scope Z_scope.

(** ** Values stored in the returned array

    The array has the TypeScript type [(number | string)[]]: an entry is a
    page number or the string ['...']. *)

Inductive label : Type :=
  | LNum (n : Z)
  | LStr (s : string).

#[global] Instance label_eq_dec : EqDecision label.
Proof. solve_decision. Defined.

(** The ellipsis marker is the string literal ['...'] of the source. *)
Definition ellipsis : label := LStr "...".

(** ** The parts of the JavaScript runtime the function relies on *)

Module JS.

(** [Number.MAX_SAFE_INTEGER], the bound [ToLength] clamps to. *)
Definition MAX_SAFE_INTEGER : Z := 2 ^ 53 - 1.

(** [ToLength(len)] on an integer: non-positive lengths become [0], large
    ones are clamped. *)
Definition ToLength (len : Z) : Z :=
  if len <=? 0 then 0 else Z.min len MAX_SAFE_INTEGER.

(** [Array.from({ length: len }, (_, i) => mapfn i)]: the array-like object
    has no indexed property, so the first argument of the callback is
    [undefined] and the result holds [mapfn 0], ..., [mapfn (n - 1)] for
    [n = ToLength len]. *)
Definition Array_from {A : Type} (len : Z) (mapfn : Z → A) : list A :=
  mapfn <$> seqZ 0 (ToLength len).

End JS.

(** ** The function

    With the arithmetic of the integers: [totalPages - 1] is the integer
    below [totalPages].  This is what the program computes on the safe
    integers; [Binary64.generatePagination] below computes as the program
    does on every number. *)

Definition generatePagination (currentPage totalPages : Z) : list label :=
  if totalPages <=? 7 then
    JS.Array_from totalPages (λ i, LNum (i + 1))
  else if currentPage <=? 3 then
    [LNum 1; LNum 2; LNum 3; ellipsis; LNum (totalPages - 1); LNum totalPages]
  else if currentPage >=? totalPages - 2 then
    [LNum 1; LNum 2; ellipsis;
     LNum (totalPages - 2); LNum (totalPages - 1); LNum totalPages]
  else
    [LNum 1; ellipsis;
     LNum (currentPage - 1); LNum currentPage; LNum (currentPage + 1);
     ellipsis; LNum totalPages].

(** ** What the specification says about a window *)

(** The numeric labels of a window, read left to right. *)
Definition page_numbers (w : list label) : list Z :=
  omap (λ p, match p with LNum n => Some n | LStr _ => None end) w.

(** Two ellipsis markers stand next to each other somewhere in the window. *)
Definition adjacent_ellipses (w : list label) : Prop :=
  ∃ i : nat, w !! i = Some ellipsis ∧ w !! S i = Some ellipsis.

(** The same test as a program, usable on concrete windows. *)
Fixpoint adjacent_ellipsesb (w : list label) : bool :=
  match w with
  | x :: w' =>
      match w' with
      | y :: _ =>
          (bool_decide (x = ellipsis) && bool_decide (y = ellipsis))
          || adjacent_ellipsesb w'
      | [] => false
      end
  | [] => false
  end.

(** ** The function as a heap-manipulating program

    In JavaScript an array is an object of the heap: an array literal
    allocates one, and [Array.from] allocates an empty one and then defines
    its elements one by one.  The store maps object identities to array
    contents, and a computation threads the store. *)

Module Heap.

Abbreviation loc := positive (only parsing).
Abbreviation store := (gmap positive (list label)) (only parsing).

Definition M (A : Type) : Type := store → A * store.

Definition ret {A : Type} (x : A) : M A := λ σ, (x, σ).

Definition bind {A B : Type} (m : M A) (k : A → M B) : M B :=
  λ σ, let '(x, σ') := m σ in k x σ'.

(** Allocation of a new array with contents [xs]; its identity is one the
    store does not use yet. *)
Definition alloc (xs : list label) : M loc :=
  λ σ, let a := fresh (dom σ) in (a, <[a := xs]> σ).

(** [CreateDataProperty(A, k, x)] when [k] is the current length of [A]:
    the array grows by one element. *)
Definition push (a : loc) (x : label) : M unit :=
  λ σ, (tt, alter (λ xs, xs ++ [x]) a σ).

(** The loop of [Array.from]: [n] iterations left, [k] the next index. *)
Fixpoint from_loop (mapfn : Z → label) (a : loc) (k : Z) (n : nat) : M unit :=
  match n with
  | O => ret tt
  | S n' => bind (push a (mapfn k)) (λ _, from_loop mapfn a (k + 1) n')
  end.

Definition Array_from (len : Z) (mapfn : Z → label) : M loc :=
  bind (alloc []) (λ a,
  bind (from_loop mapfn a 0 (Z.to_nat (JS.ToLength len))) (λ _,
  ret a)).

Definition generatePagination (currentPage totalPages : Z) : M loc :=
  if totalPages <=? 7 then
    Array_from totalPages (λ i, LNum (i + 1))
  else if currentPage <=? 3 then
    alloc [LNum 1; LNum 2; LNum 3; ellipsis;
           LNum (totalPages - 1); LNum totalPages]
  else if currentPage >=? totalPages - 2 then
    alloc [LNum 1; LNum 2; ellipsis;
           LNum (totalPages - 2); LNum (totalPages - 1); LNum totalPages]
  else
    alloc [LNum 1; ellipsis;
           LNum (currentPage - 1); LNum currentPage; LNum (currentPage + 1);
           ellipsis; LNum totalPages].

End Heap.

(** ** The numbers of the program: IEEE 754 binary64

    [spec_float] is the specification of binary floating-point numbers of the
    Rocq library; with a precision of 53 bits and [emax = 1024] its
    operations are those of a JavaScript number. *)

Module Binary64.

Definition prec : Z := 53.
Definition emax : Z := 1024.

(** The number a decimal integer literal, or an array index, denotes: the
    integer rounded to the nearest number, ties to even. *)
Definition of_Z (z : Z) : spec_float := binary_normalize prec emax z 0 false.

(** [x + y], [x - y], [x <= y] and [x >= y]. *)
Definition add (x y : spec_float) : spec_float := SFadd prec emax x y.
Definition sub (x y : spec_float) : spec_float := SFsub prec emax x y.
Definition leb (x y : spec_float) : bool := SFleb x y.
Definition geb (x y : spec_float) : bool := leb y x.

(** The integer a number is, when it is one. *)
Definition to_Z (x : spec_float) : option Z :=
  match x with
  | S754_zero _ => Some 0
  | S754_finite s m e =>
      if 0 <=? e then Some (cond_Zopp s (Zpos m * 2 ^ e))
      else if Zpos m mod 2 ^ (- e) =? 0
           then Some (cond_Zopp s (Zpos m / 2 ^ (- e)))
           else None
  | S754_infinity _ | S754_nan => None
  end.

(** [Number.isSafeInteger] on an integer. *)
Definition safe (z : Z) : Prop :=
  - JS.MAX_SAFE_INTEGER ≤ z ≤ JS.MAX_SAFE_INTEGER.

(** [ToLength(x)]: the number is truncated to an integer and clamped between
    [0] and [2^53 - 1]; [NaN] gives [0]. *)
Definition ToLength (x : spec_float) : Z :=
  match x with
  | S754_finite false m e => Z.min (Z.shiftl (Zpos m) e) JS.MAX_SAFE_INTEGER
  | S754_infinity false => JS.MAX_SAFE_INTEGER
  | _ => 0
  end.

(** [Array.from({ length: len }, (_, i) => mapfn i)], the index [i] being a
    number. *)
Definition Array_from {A : Type} (len : spec_float) (mapfn : spec_float → A)
    : list A :=
  (λ i, mapfn (of_Z i)) <$> seqZ 0 (ToLength len).

(** An entry of the returned array, of type [number | string]. *)
Inductive entry : Type :=
  | Num (x : spec_float)
  | Str (s : string).

Definition generatePagination (currentPage totalPages : spec_float)
    : list entry :=
  if leb totalPages (of_Z 7) then
    Array_from totalPages (λ i, Num (add i (of_Z 1)))
  else if leb currentPage (of_Z 3) then
    [Num (of_Z 1); Num (of_Z 2); Num (of_Z 3); Str "...";
     Num (sub totalPages (of_Z 1)); Num totalPages]
  else if geb currentPage (sub totalPages (of_Z 2)) then
    [Num (of_Z 1); Num (of_Z 2); Str "...";
     Num (sub totalPages (of_Z 2)); Num (sub totalPages (of_Z 1));
     Num totalPages]
  else
    [Num (of_Z 1); Str "...";
     Num (sub currentPage (of_Z 1)); Num currentPage;
     Num (add currentPage (of_Z 1));
     Str "..."; Num totalPages].

(** The window read as labels over the integers: defined when every number
    of the array is an integer. *)
Definition exact_entry (p : entry) : option label :=
  match p with
  | Num x => LNum <$> to_Z x
  | Str s => Some (LStr s)
  end.

Definition exact_window (w : list entry) : option (list label) :=
  mapM exact_entry w.

(** The mantissa and the float of a positive integer below [2^53], as
    [of_Z] gives them (used in the proofs). *)
Definition mantissa (q : positive) : positive :=
  Z.to_pos (Zpos q * 2 ^ (53 - Zpos (digits2_pos q))).

Definition canonical (s : bool) (q : positive) : spec_float :=
  S754_finite s (mantissa q) (Zpos (digits2_pos q) - 53).

End Binary64.

(** ** Strings, numbers as strings and URL query parameters

    The components of the chapter build URLs with [URLSearchParams].  A
    string is modelled by the sequence of bytes of its UTF-8 encoding, which
    is what the serializer of query parameters works on. *)

Module JSString.

(** [n.toString()] and [`${n}`] for a safe integer [n]: its decimal digits,
    after a minus sign when it is negative.  (Beyond the safe range
    JavaScript prints the shortest digits that identify the number, and an
    exponent from [10^21] on; the statements that depend on the digits are
    made for safe integers.) *)
Definition Number_toString (n : Z) : string := pretty n.

(** [ToBoolean] on a string, the test of [if (term)]: only the empty string
    is falsy. *)
Definition ToBoolean (s : string) : bool :=
  match s with
  | EmptyString => false
  | String _ _ => true
  end.

(** The value of a decimal digit. *)
Definition digit (c : ascii) : option Z :=
  let n := Z.of_N (N_of_ascii c) in
  if (48 <=? n) && (n <=? 57) then Some (n - 48) else None.

Fixpoint digits (acc : Z) (s : string) : option Z :=
  match s with
  | EmptyString => Some acc
  | String c s' =>
      match digit c with
      | Some d => digits (acc * 10 + d) s'
      | None => None
      end
  end.

(** [Number(s)] for a string made of decimal digits, after an optional
    sign, that denotes a safe integer; the empty string gives [0].  The
    other strings [Number] converts (with spaces, a fraction, an exponent
    or a radix prefix, [Infinity]) and the larger integers are left out:
    [None]. *)
Definition Number_integer (s : string) : option Z :=
  let safe (n : Z) : option Z :=
    if n <=? JS.MAX_SAFE_INTEGER then Some n else None in
  match s with
  | String "-" (String c s') =>
      match digits 0 (String c s') with
      | Some n => Z.opp <$> safe n
      | None => None
      end
  | String "+" (String c s') =>
      match digits 0 (String c s') with
      | Some n => safe n
      | None => None
      end
  | _ =>
      match digits 0 s with
      | Some n => safe n
      | None => None
      end
  end.

(** [Number(page) || 1] for a page parameter that is missing ([null] or
    [undefined]) or covered by [Number_integer]: [0] and the missing
    parameter give [1]. *)
Definition Number_or_1 (page : option string) : option Z :=
  match page with
  | None => Some 1
  | Some s =>
      match Number_integer s with
      | Some n => Some (if n =? 0 then 1 else n)
      | None => None
      end
  end.

End JSString.

(** [page.toString()] and [`${page}`] for an entry of the window. *)
Definition label_toString (p : label) : string :=
  match p with
  | LNum n => JSString.Number_toString n
  | LStr s => s
  end.

Module URLSearchParams.

(** The object holds a list of name-value pairs; order and duplicates are
    kept. *)
Abbreviation t := (list (string * string)) (only parsing).

(** [new URLSearchParams(init)] for an [init] that is itself a
    [URLSearchParams]: a new list with the same pairs. *)
Definition copy (init : t) : t := init.

(** [get(name)]: the value of the first pair named [name], [null] when
    there is none. *)
Fixpoint get (name : string) (l : t) : option string :=
  match l with
  | [] => None
  | (k, v) :: l' => if decide (k = name) then Some v else get name l'
  end.

(** [has(name)]. *)
Definition has (name : string) (l : t) : bool := bool_decide (name ∈ l.*1).

(** [delete(name)]: every pair named [name] is removed. *)
Definition delete (name : string) (l : t) : t :=
  filter (λ kv, kv.1 ≠ name) l.

(** The first pair named [name] receives [value], the other pairs of that
    name are removed. *)
Fixpoint set_first (name value : string) (l : t) : t :=
  match l with
  | [] => []
  | (k, v) :: l' =>
      if decide (k = name) then (k, value) :: delete name l'
      else (k, v) :: set_first name value l'
  end.

(** [set(name, value)]: when a pair named [name] exists the first one is
    updated and the others removed, otherwise a pair is appended. *)
Definition set (name value : string) (l : t) : t :=
  if has name l then set_first name value l else l ++ [(name, value)].

(** Bytes the [application/x-www-form-urlencoded] serializer leaves as they
    are: ASCII letters and digits, [*], [-], [.] and [_]. *)
Definition unreserved (c : ascii) : bool :=
  let n := N_of_ascii c in
  ((48 <=? n) && (n <=? 57) || (65 <=? n) && (n <=? 90)
   || (97 <=? n) && (n <=? 122) || (n =? 42) || (n =? 45) || (n =? 46)
   || (n =? 95))%N.

Definition hex_digit (n : N) : ascii :=
  match n with
  | 0 => "0" | 1 => "1" | 2 => "2" | 3 => "3" | 4 => "4" | 5 => "5"
  | 6 => "6" | 7 => "7" | 8 => "8" | 9 => "9" | 10 => "A" | 11 => "B"
  | 12 => "C" | 13 => "D" | 14 => "E" | _ => "F"
  end%char%N.

(** A space becomes [+]; any other byte outside the set above becomes [%]
    followed by its two upper-case hexadecimal digits. *)
Definition percent_encode_byte (c : ascii) : string :=
  if unreserved c then String c ""
  else if decide (c = " "%char) then "+"
  else
    let n := N_of_ascii c in
    String "%" (String (hex_digit (n / 16)) (String (hex_digit (n mod 16)) "")).

Fixpoint percent_encode (s : string) : string :=
  match s with
  | EmptyString => ""
  | String c s' => percent_encode_byte c +:+ percent_encode s'
  end.

Definition serialize_pair (kv : string * string) : string :=
  percent_encode kv.1 +:+ "=" +:+ percent_encode kv.2.

(** [toString()]: the pairs as [name=value], separated by [&]. *)
Fixpoint toString (l : t) : string :=
  match l with
  | [] => ""
  | kv :: l' =>
      match l' with
      | [] => serialize_pair kv
      | _ :: _ => serialize_pair kv +:+ "&" +:+ toString l'
      end
  end.

End URLSearchParams.

(** ** The [Search] component (app/ui/search.tsx) *)

Module Search.

(** What the callback does to the outside: it writes a line to the console
    and asks the router to replace the URL. *)
Inductive effect : Type :=
  | console_log (line : string)
  | replace (url : string).

(** The parameters [handleSearch] puts in the URL. *)
Definition handleSearch_params
    (searchParams : URLSearchParams.t) (term : string) : URLSearchParams.t :=
  let params := URLSearchParams.copy searchParams in
  let params := URLSearchParams.set "page" "1" params in
  if JSString.ToBoolean term then URLSearchParams.set "query" term params
  else URLSearchParams.delete "query" params.

(** The body of the debounced callback, run on [term] in a component whose
    hooks returned [searchParams] and [pathname]. *)
Definition handleSearch
    (searchParams : URLSearchParams.t) (pathname term : string) : list effect :=
  [ console_log ("Searching... " +:+ term);
    replace (pathname +:+ "?"
             +:+ URLSearchParams.toString (handleSearch_params searchParams term)) ].

(** [defaultValue] of the input: [searchParams.get('query')?.toString()]. *)
Definition defaultValue (searchParams : URLSearchParams.t) : option string :=
  URLSearchParams.get "query" searchParams.

End Search.

(** ** The [Pagination] component (app/ui/invoices/pagination.tsx) *)

Module Position.

(** The values of the variable [position]; [undefined] is [None]. *)
Inductive t : Type := first | last | single | middle.

#[global] Instance eq_dec : EqDecision t.
Proof. solve_decision. Defined.

End Position.

Module Pagination.

Inductive direction : Type := left | right.

(** Properties passed to [PaginationNumber] and to [PaginationArrow]. *)
Record number_props : Type := NumberProps {
  key : string;
  href : string;
  page : label;
  position : option Position.t;
  isActive : bool
}.

Record arrow_props : Type := ArrowProps {
  arrow_direction : direction;
  arrow_href : string;
  isDisabled : bool
}.

Record view : Type := View {
  previous : arrow_props;
  numbers : list number_props;
  next : arrow_props
}.

(** The parameters [createPageURL] puts in the URL. *)
Definition createPageURL_params
    (searchParams : URLSearchParams.t) (pageNumber : label) : URLSearchParams.t :=
  let params := URLSearchParams.copy searchParams in
  URLSearchParams.set "page" (label_toString pageNumber) params.

Definition createPageURL
    (searchParams : URLSearchParams.t) (pathname : string) (pageNumber : label)
    : string :=
  pathname +:+ "?"
  +:+ URLSearchParams.toString (createPageURL_params searchParams pageNumber).

(** The four assignments to [position] in the callback of [allPages.map],
    in the order of the source: a later one overrides an earlier one. *)
Definition number_position (index length : Z) (page : label)
    : option Position.t :=
  let position := None in
  let position := if index =? 0 then Some Position.first else position in
  let position := if index =? length - 1 then Some Position.last else position in
  let position := if length =? 1 then Some Position.single else position in
  let position :=
    if bool_decide (page = ellipsis) then Some Position.middle else position in
  position.

(** [currentPage === page]: a string is never equal to a number. *)
Definition is_current (currentPage : Z) (page : label) : bool :=
  match page with
  | LNum n => currentPage =? n
  | LStr _ => false
  end.

(** [Number(searchParams.get('page')) || 1] when it is an integer.  [None]
    stands for the other values ([page=2.5], [page=abc]), which are not
    integers or are left out by [Number_integer]. *)
Definition currentPage (searchParams : URLSearchParams.t) : option Z :=
  JSString.Number_or_1 (URLSearchParams.get "page" searchParams).

(** What the component renders when [currentPage], the value of
    [Number(searchParams.get('page')) || 1], is the integer given. *)
Definition Pagination
    (searchParams : URLSearchParams.t) (pathname : string)
    (currentPage totalPages : Z) : view :=
  let allPages := generatePagination currentPage totalPages in
  {| previous :=
       {| arrow_direction := left;
          arrow_href := createPageURL searchParams pathname (LNum (currentPage - 1));
          isDisabled := currentPage <=? 1 |};
     numbers :=
       imap (λ index page,
         {| key := label_toString page +:+ "-"
                   +:+ JSString.Number_toString (Z.of_nat index);
            href := createPageURL searchParams pathname page;
            page := page;
            position :=
              number_position (Z.of_nat index) (Z.of_nat (length allPages)) page;
            isActive := is_current currentPage page |}) allPages;
     next :=
       {| arrow_direction := right;
          arrow_href := createPageURL searchParams pathname (LNum (currentPage + 1));
          isDisabled := currentPage >=? totalPages |} |}.

End Pagination.

(** ** Data fetching (app/lib/data.ts)

    The two functions send a query to the database.  Both queries select
    from the same join with the same [WHERE] clause; [matching] stands for
    the rows this selects, in the order [ORDER BY invoices.date DESC] gives
    them. *)

Module Data.

Definition ITEMS_PER_PAGE : Z := 6.

(** [LIMIT limit OFFSET offset] on the ordered rows, for integers in the
    range of the database's [bigint].  The database rejects a negative limit
    or offset, and the promise is then rejected: [None].  (It also rejects
    what is beyond [bigint]; the statements on requests bound the page.) *)
Definition limit_offset {row : Type}
    (limit offset : Z) (rows : list row) : option (list row) :=
  if (limit <? 0) || (offset <? 0) then None
  else Some (take (Z.to_nat limit) (drop (Z.to_nat offset) rows)).

(** For an integer [currentPage] whose offset is a safe integer, so that
    the product below is exact.  (The page of a URL can be another number,
    [page=2.5]; the statements on requests are for integers.) *)
Definition fetchFilteredInvoices {row : Type}
    (matching : list row) (currentPage : Z) : option (list row) :=
  let offset := (currentPage - 1) * ITEMS_PER_PAGE in
  limit_offset ITEMS_PER_PAGE offset matching.

(** [Math.ceil(a / b)] for a non-negative integer [a] and a positive integer
    [b] of the safe range: the least integer not below the quotient. *)
Definition Math_ceil_div (a b : Z) : Z := - ((- a) / b).

Definition fetchInvoicesPages {row : Type} (matching : list row) : Z :=
  let count := Z.of_nat (length matching) in
  let totalPages := Math_ceil_div count ITEMS_PER_PAGE in
  totalPages.

End Data.

(** ** The invoices page (app/dashboard/invoices/page.tsx) *)

Module Page.

(** [key={query + currentPage}]: the string [query] followed by the number
    [currentPage] as a string. *)
Definition Suspense_key (query : string) (currentPage : Z) : string :=
  query +:+ JSString.Number_toString currentPage.

(** [Number(searchParams?.page) || 1] when it is an integer. *)
Definition currentPage (page : option string) : option Z :=
  JSString.Number_or_1 page.

End Page.

(** * Proofs *)

(** The examples given in the comments of the source. *)

Example generatePagination_7 :
  generatePagination 1 7 = LNum <$> [1; 2; 3; 4; 5; 6; 7].
Proof. reflexivity. Qed.

Example generatePagination_1_10 :
  generatePagination 1 10 = [LNum 1; LNum 2; LNum 3; ellipsis; LNum 9; LNum 10].
Proof. reflexivity. Qed.

Example generatePagination_9_10 :
  generatePagination 9 10 = [LNum 1; LNum 2; ellipsis; LNum 8; LNum 9; LNum 10].
Proof. reflexivity. Qed.

Example generatePagination_5_10 :
  generatePagination 5 10
  = [LNum 1; ellipsis; LNum 4; LNum 5; LNum 6; ellipsis; LNum 10].
Proof. reflexivity. Qed.

Example adjacent_ellipsesb_5_10 :
  adjacent_ellipsesb (generatePagination 5 10) = false.
Proof. reflexivity. Qed.

(** On the empty store the program returns a new array holding the window. *)
Example heap_generatePagination_3_5 :
  let r := Heap.generatePagination 3 5 ∅ in
  r.2 !! r.1 = Some (LNum <$> [1; 2; 3; 4; 5]).
Proof. vm_compute. reflexivity. Qed.

(** ** Auxiliary facts on ranges and labels *)

Lemma page_numbers_LNum (l : list Z) : page_numbers (LNum <$> l) = l.
Proof.
  induction l as [|n l IH]; [done|].
  cbn. unfold page_numbers in IH. by rewrite IH.
Qed.

Lemma seqZ_increasing (m n : Z) : StronglySorted Z.lt (seqZ m n).
Proof.
  remember (Z.to_nat n) as k eqn:Hk.
  revert m n Hk. induction k as [|k IH]; intros m n Hk.
  - rewrite seqZ_nil by lia. constructor.
  - rewrite seqZ_cons by lia. constructor.
    + apply IH. lia.
    + apply Forall_seqZ. lia.
Qed.

Lemma last_seqZ (m n : Z) : 0 < n → last (seqZ m n) = Some (m + n - 1).
Proof.
  intros Hn. rewrite last_lookup, length_seqZ.
  rewrite lookup_seqZ_lt by lia. f_equal. lia.
Qed.

Lemma head_seqZ (m n : Z) : 0 < n → head (seqZ m n) = Some m.
Proof. intros Hn. by rewrite seqZ_cons by lia. Qed.

Lemma ToLength_small (len : Z) :
  len ≤ 7 → JS.ToLength len = Z.max 0 len.
Proof.
  intros Hlen. unfold JS.ToLength, JS.MAX_SAFE_INTEGER.
  destruct (Z.leb_spec len 0); lia.
Qed.

(** [Array.from({ length: n }, (_, i) => i + 1)] is the range [1..n]. *)
Lemma Array_from_range (n : Z) :
  n ≤ 7 → JS.Array_from n (λ i, LNum (i + 1)) = LNum <$> seqZ 1 n.
Proof.
  intros Hn. unfold JS.Array_from. rewrite ToLength_small by done.
  replace (seqZ 1 n) with (seqZ (1 + 0) (Z.max 0 n)).
  - rewrite <- fmap_add_seqZ, <- list_fmap_compose.
    apply list_fmap_ext. intros _ i _. cbn. f_equal. lia.
  - destruct (decide (n ≤ 0)); [by rewrite !seqZ_nil by lia|].
    f_equal; lia.
Qed.

(** ** The four branches *)

Lemma generatePagination_small (c t : Z) :
  t ≤ 7 → generatePagination c t = LNum <$> seqZ 1 t.
Proof.
  intros Ht. unfold generatePagination.
  destruct (Z.leb_spec t 7); [|lia]. by apply Array_from_range.
Qed.

Lemma generatePagination_start (c t : Z) :
  7 < t → c ≤ 3 →
  generatePagination c t
  = [LNum 1; LNum 2; LNum 3; ellipsis; LNum (t - 1); LNum t].
Proof.
  intros Ht Hc. unfold generatePagination.
  destruct (Z.leb_spec t 7); [lia|].
  destruct (Z.leb_spec c 3); [done|lia].
Qed.

Lemma generatePagination_end (c t : Z) :
  7 < t → 3 < c → t - 2 ≤ c →
  generatePagination c t
  = [LNum 1; LNum 2; ellipsis; LNum (t - 2); LNum (t - 1); LNum t].
Proof.
  intros Ht Hc Hct. unfold generatePagination.
  destruct (Z.leb_spec t 7); [lia|].
  destruct (Z.leb_spec c 3); [lia|].
  rewrite Z.geb_leb. destruct (Z.leb_spec (t - 2) c); [done|lia].
Qed.

Lemma generatePagination_middle (c t : Z) :
  7 < t → 3 < c → c < t - 2 →
  generatePagination c t
  = [LNum 1; ellipsis; LNum (c - 1); LNum c; LNum (c + 1); ellipsis; LNum t].
Proof.
  intros Ht Hc Hct. unfold generatePagination.
  destruct (Z.leb_spec t 7); [lia|].
  destruct (Z.leb_spec c 3); [lia|].
  rewrite Z.geb_leb. destruct (Z.leb_spec (t - 2) c); [lia|done].
Qed.

(** Case analysis following the order of the tests in the source: the goal
    is split in four and the call is replaced by the array of the branch. *)
Ltac window_cases c t :=
  destruct (Z_le_gt_dec t 7);
    [ rewrite (generatePagination_small c t) by lia
    | destruct (Z_le_gt_dec c 3);
        [ rewrite (generatePagination_start c t) by lia
        | destruct (Z_le_gt_dec (t - 2) c);
            [ rewrite (generatePagination_end c t) by lia
            | rewrite (generatePagination_middle c t) by lia ] ] ].

(** Goals on an explicit list of labels. *)
Ltac sorted_bounds :=
  repeat match goal with
         | |- StronglySorted _ _ => constructor
         | |- Forall _ _ => constructor
         end;
  lia.

Ltac no_ellipsis_pair H1 H2 i :=
  do 8 (try (destruct i as [|i]; [discriminate H1 || discriminate H2|]));
  discriminate H1.

(** ** Windows of at most seven pages *)

Lemma small_window_no_string (l : list Z) (s : string) : LStr s ∉ LNum <$> l.
Proof. intros (n & Hn & _)%list_elem_of_fmap. discriminate Hn. Qed.

Lemma small_window_no_pair (l : list Z) : ¬ adjacent_ellipses (LNum <$> l).
Proof.
  intros (i & H1 & _). rewrite list_lookup_fmap in H1.
  destruct (l !! i); discriminate H1.
Qed.

(** C1: for [totalPages] in [1, 7] and [currentPage] in [1, totalPages] the
    result is the whole sequence [1, 2, ..., totalPages], in order, and holds
    no ellipsis marker. *)
Theorem small_total_full_range (c t : Z) :
  1 ≤ t ≤ 7 → 1 ≤ c ≤ t →
  generatePagination c t = LNum <$> seqZ 1 t
  ∧ ellipsis ∉ generatePagination c t.
Proof.
  intros Ht Hc. rewrite generatePagination_small by lia.
  split; [done|]. apply small_window_no_string.
Qed.

Lemma small_total_full_range_witness :
  (1 ≤ 5 ≤ 7 ∧ 1 ≤ 2 ≤ 5)
  ∧ generatePagination 2 5 = LNum <$> seqZ 1 5
  ∧ ellipsis ∉ generatePagination 2 5.
Proof. split; [lia|]. apply (small_total_full_range 2 5); lia. Defined.

(** ** Invariants of every window *)

(** C6: for [totalPages >= 1] and [currentPage] in [1, totalPages] the
    result is not empty, starts with the number [1] and ends with the number
    [totalPages]; for a single page it is the window [[1]]. *)
Theorem window_boundaries (c t : Z) :
  1 ≤ t → 1 ≤ c ≤ t →
  generatePagination c t ≠ []
  ∧ head (generatePagination c t) = Some (LNum 1)
  ∧ last (generatePagination c t) = Some (LNum t)
  ∧ (t = 1 → generatePagination c t = [LNum 1]).
Proof.
  intros Ht Hc. window_cases c t.
  - repeat split.
    + intros Hnil%fmap_nil_inv. apply (f_equal length) in Hnil.
      rewrite length_seqZ in Hnil. cbn in Hnil. lia.
    + by rewrite seqZ_cons by lia.
    + rewrite fmap_last, last_seqZ by lia. cbn. do 2 f_equal. lia.
    + by intros ->.
  - repeat split; [done|lia].
  - repeat split; [done|lia].
  - repeat split; [done|lia].
Qed.

Lemma window_boundaries_witness :
  (1 ≤ 1 ∧ 1 ≤ 1 ≤ 1)
  ∧ generatePagination 1 1 ≠ []
  ∧ head (generatePagination 1 1) = Some (LNum 1)
  ∧ last (generatePagination 1 1) = Some (LNum 1)
  ∧ (1 = 1 → generatePagination 1 1 = [LNum 1]).
Proof. split; [lia|]. apply (window_boundaries 1 1); lia. Defined.

(** C9: for [totalPages >= 1] and [currentPage] in [1, totalPages] the
    number [currentPage] is one of the numeric labels of the result: the
    active page is never replaced by an ellipsis. *)
Theorem current_page_shown (c t : Z) :
  1 ≤ t → 1 ≤ c ≤ t →
  c ∈ page_numbers (generatePagination c t).
Proof.
  intros Ht Hc. window_cases c t.
  - rewrite page_numbers_LNum. apply elem_of_seqZ. lia.
  - cbn. assert (c = 1 ∨ c = 2 ∨ c = 3) as [-> | [-> | ->]] by lia;
      rewrite !elem_of_cons; auto.
  - cbn. assert (c = t - 2 ∨ c = t - 1 ∨ c = t) as [-> | [-> | ->]] by lia;
      rewrite !elem_of_cons; auto 6.
  - cbn. rewrite !elem_of_cons. auto.
Qed.

Lemma current_page_shown_witness :
  (1 ≤ 40 ∧ 1 ≤ 17 ≤ 40) ∧ 17 ∈ page_numbers (generatePagination 17 40).
Proof. split; [lia|]. apply (current_page_shown 17 40); lia. Defined.

(** ** Outside the documented domain *)

(** C10: for [totalPages <= 0] and any [currentPage] the result is the empty
    sequence. *)
Theorem no_page_empty_window (c t : Z) :
  t ≤ 0 → generatePagination c t = [].
Proof.
  intros Ht. rewrite generatePagination_small by lia.
  by rewrite seqZ_nil by lia.
Qed.

Lemma no_page_empty_window_witness :
  -3 ≤ 0 ∧ generatePagination 4 (-3) = [].
Proof. split; [lia|]. apply (no_page_empty_window 4 (-3)); lia. Defined.

(** The boolean test decides the adjacency of two ellipsis markers. *)
Lemma adjacent_ellipsesb_spec (w : list label) :
  adjacent_ellipsesb w = true ↔ adjacent_ellipses w.
Proof.
  induction w as [|x w IH].
  { split; [discriminate|]. intros (i & H1 & _). discriminate H1. }
  destruct w as [|y w].
  { split; [discriminate|]. intros ([|i] & H1 & H2); discriminate. }
  change (adjacent_ellipsesb (x :: y :: w))
    with ((bool_decide (x = ellipsis) && bool_decide (y = ellipsis))
          || adjacent_ellipsesb (y :: w)).
  rewrite orb_true_iff, andb_true_iff, !bool_decide_eq_true, IH.
  split.
  - intros [[-> ->] | (i & H1 & H2)]; [by exists 0%nat | by exists (S i)].
  - intros ([|i] & H1 & H2).
    + left. cbn in H1, H2. by simplify_eq.
    + right. by exists i.
Qed.

(** ** The heap-manipulating program computes the same window *)

Section heap.
Implicit Types (σ : gmap positive (list label)) (a : positive).

Lemma alloc_fresh xs σ : σ !! (Heap.alloc xs σ).1 = None.
Proof. cbn. apply not_elem_of_dom, is_fresh. Qed.

(** The loop appends [mapfn k], [mapfn (k + 1)], ... to the array [a] and
    touches nothing else. *)
Lemma from_loop_spec mapfn a n k σ xs :
  σ !! a = Some xs →
  Heap.from_loop mapfn a k n σ
  = (tt, <[a := xs ++ (mapfn <$> seqZ k (Z.of_nat n))]> σ).
Proof.
  revert k σ xs. induction n as [|n IH]; intros k σ xs Ha.
  - cbn. rewrite seqZ_nil, app_nil_r by done. by rewrite insert_id.
  - cbn [Heap.from_loop]. unfold Heap.bind, Heap.push.
    rewrite (IH (k + 1) _ (xs ++ [mapfn k])).
    + rewrite insert_alter_eq, (seqZ_cons k) by lia.
      rewrite <- app_assoc. cbn.
      replace (Z.pred (Z.of_nat (S n))) with (Z.of_nat n) by lia.
      by replace (Z.succ k) with (k + 1) by lia.
    + by rewrite lookup_alter_eq, Ha.
Qed.

Lemma Array_from_spec len mapfn σ :
  Heap.Array_from len mapfn σ = Heap.alloc (JS.Array_from len mapfn) σ.
Proof.
  unfold Heap.Array_from, Heap.bind, Heap.alloc, Heap.ret.
  rewrite (from_loop_spec _ _ _ _ _ []) by apply lookup_insert_eq.
  rewrite insert_insert_eq, Z2Nat.id; [done|].
  unfold JS.ToLength, JS.MAX_SAFE_INTEGER.
  destruct (Z.leb_spec len 0); lia.
Qed.

(** Running the program allocates one array, whose contents are the window
    computed by [generatePagination]. *)
Lemma generatePagination_heap c t σ :
  Heap.generatePagination c t σ = Heap.alloc (generatePagination c t) σ.
Proof.
  unfold Heap.generatePagination, generatePagination.
  repeat case_match; first [apply Array_from_spec | reflexivity].
Qed.
End heap.

(** C8: the function is deterministic and has no side effect.  Run from any
    two stores, two invocations on the same pair of integers return arrays
    with the same contents, namely the window of these integers; the returned
    array is a new object, every object of the initial store is left as it
    was, and nothing but the returned array is added to the store. *)
Theorem generatePagination_deterministic
    (c t : Z) (σ1 σ2 : gmap positive (list label)) :
  let r1 := Heap.generatePagination c t σ1 in
  let r2 := Heap.generatePagination c t σ2 in
  r1.2 !! r1.1 = Some (generatePagination c t)
  ∧ r2.2 !! r2.1 = r1.2 !! r1.1
  ∧ σ1 !! r1.1 = None
  ∧ σ1 ⊆ r1.2
  ∧ dom r1.2 = {[r1.1]} ∪ dom σ1.
Proof.
  intros r1 r2. subst r1 r2. rewrite !generatePagination_heap.
  pose proof (alloc_fresh (generatePagination c t) σ1) as Hfresh.
  cbn in *. rewrite !lookup_insert_eq.
  repeat split; [done|by apply insert_subseteq|apply dom_insert_L].
Qed.

(** * The components around the window *)

(** ** Query parameters: what [get], [set] and [delete] do to a list *)

Section params.
Implicit Types (l : list (string * string)) (name k v w : string).

Lemma params_has_cons name k v l :
  URLSearchParams.has name ((k, v) :: l)
  = bool_decide (k = name) || URLSearchParams.has name l.
Proof.
  unfold URLSearchParams.has. cbn.
  rewrite <- bool_decide_or. apply bool_decide_ext.
  rewrite elem_of_cons. split; (intros [?|?]; [left; congruence|by right]).
Qed.

Lemma params_set_nil name v : URLSearchParams.set name v [] = [(name, v)].
Proof. reflexivity. Qed.

(** [set] follows the list: it stops at the first pair of that name. *)
Lemma params_set_cons name v k w l :
  URLSearchParams.set name v ((k, w) :: l)
  = if decide (k = name) then (k, v) :: URLSearchParams.delete name l
    else (k, w) :: URLSearchParams.set name v l.
Proof.
  unfold URLSearchParams.set. rewrite params_has_cons. cbn.
  destruct (decide (k = name)) as [->|Hk].
  - by rewrite bool_decide_eq_true_2.
  - rewrite bool_decide_eq_false_2 by done. cbn.
    by destruct (URLSearchParams.has name l).
Qed.

Lemma params_delete_cons name k w l :
  URLSearchParams.delete name ((k, w) :: l)
  = if decide (k = name) then URLSearchParams.delete name l
    else (k, w) :: URLSearchParams.delete name l.
Proof.
  unfold URLSearchParams.delete. rewrite filter_cons. cbn.
  destruct (decide (k = name)), (decide (k ≠ name)); done.
Qed.

Lemma params_delete_delete name l :
  URLSearchParams.delete name (URLSearchParams.delete name l)
  = URLSearchParams.delete name l.
Proof.
  induction l as [|[k w] l IH]; [done|].
  rewrite params_delete_cons. destruct (decide (k = name)); [done|].
  rewrite params_delete_cons. destruct (decide (k = name)); [done|].
  by rewrite IH.
Qed.

Lemma params_named_delete name l :
  filter (λ kv, kv.1 = name) (URLSearchParams.delete name l) = [].
Proof.
  induction l as [|[k w] l IH]; [done|].
  rewrite params_delete_cons. destruct (decide (k = name)); [done|].
  by rewrite filter_cons_False.
Qed.

Lemma params_get_delete_eq name l :
  URLSearchParams.get name (URLSearchParams.delete name l) = None.
Proof.
  induction l as [|[k w] l IH]; [done|].
  rewrite params_delete_cons. destruct (decide (k = name)); [done|].
  cbn. by rewrite decide_False.
Qed.

(** Reading a name sees through the removal of another one. *)
Lemma params_get_delete_ne name k l :
  k ≠ name →
  URLSearchParams.get k (URLSearchParams.delete name l) = URLSearchParams.get k l.
Proof.
  intros Hk. induction l as [|[k' w] l IH]; [done|].
  rewrite params_delete_cons. cbn.
  destruct (decide (k' = name)) as [->|]; cbn.
  - by rewrite decide_False.
  - by rewrite IH.
Qed.

(** After [set] the list holds one pair of that name, with the new value. *)
Lemma params_named_set name v l :
  filter (λ kv, kv.1 = name) (URLSearchParams.set name v l) = [(name, v)].
Proof.
  induction l as [|[k w] l IH]; [by rewrite params_set_nil, filter_cons_True|].
  rewrite params_set_cons. destruct (decide (k = name)) as [->|].
  - by rewrite filter_cons_True, params_named_delete.
  - by rewrite filter_cons_False.
Qed.

(** [set] leaves the pairs of the other names where they are. *)
Lemma params_delete_set name v l :
  URLSearchParams.delete name (URLSearchParams.set name v l)
  = URLSearchParams.delete name l.
Proof.
  induction l as [|[k w] l IH].
  - rewrite params_set_nil, params_delete_cons. by rewrite decide_True.
  - rewrite params_set_cons, (params_delete_cons name k w).
    destruct (decide (k = name)) as [->|].
    + rewrite params_delete_cons, decide_True by done.
      apply params_delete_delete.
    + rewrite params_delete_cons, decide_False by done. by rewrite IH.
Qed.

Lemma params_get_set_eq name v l :
  URLSearchParams.get name (URLSearchParams.set name v l) = Some v.
Proof.
  induction l as [|[k w] l IH].
  { rewrite params_set_nil. cbn [URLSearchParams.get]. by rewrite decide_True. }
  rewrite params_set_cons. destruct (decide (k = name)) as [->|].
  - cbn. by rewrite decide_True.
  - cbn. by rewrite decide_False.
Qed.

Lemma params_get_set_ne name k v l :
  k ≠ name →
  URLSearchParams.get k (URLSearchParams.set name v l) = URLSearchParams.get k l.
Proof.
  intros Hk.
  rewrite <- (params_get_delete_ne name k (URLSearchParams.set name v l)) by done.
  rewrite params_delete_set. by apply params_get_delete_ne.
Qed.

(** A second [set] of the same name overrides the first. *)
Lemma params_set_set name v w l :
  URLSearchParams.set name w (URLSearchParams.set name v l)
  = URLSearchParams.set name w l.
Proof.
  induction l as [|[k x] l IH].
  - rewrite !params_set_nil, params_set_cons. by rewrite decide_True.
  - rewrite (params_set_cons name v), (params_set_cons name w).
    destruct (decide (k = name)) as [->|].
    + rewrite params_set_cons, decide_True by done.
      by rewrite params_delete_delete.
    + rewrite params_set_cons, decide_False by done. by rewrite IH.
Qed.

(** [set] changes nothing when the list holds that pair and no other pair of
    the name. *)
Lemma params_set_id name v l :
  filter (λ kv, kv.1 = name) l = [(name, v)] →
  URLSearchParams.set name v l = l.
Proof.
  induction l as [|[k w] l IH]; [done|].
  rewrite params_set_cons, filter_cons. cbn.
  destruct (decide (k = name)) as [->|]; intros Hl.
  - injection Hl as -> Hl. f_equal.
    unfold URLSearchParams.delete.
    clear IH. induction l as [|[k' w'] l IH]; [done|].
    rewrite filter_cons in Hl. cbn in Hl.
    destruct (decide (k' = name)); [done|].
    rewrite filter_cons_True by done. by rewrite IH.
  - by rewrite IH.
Qed.

Lemma params_named_set_ne name k v l :
  k ≠ name →
  filter (λ kv, kv.1 = k) (URLSearchParams.set name v l)
  = filter (λ kv, kv.1 = k) l.
Proof.
  intros Hk. induction l as [|[k' w] l IH].
  - rewrite params_set_nil. by rewrite filter_cons_False by (cbn; congruence).
  - rewrite params_set_cons. destruct (decide (k' = name)) as [->|].
    + rewrite !filter_cons_False by (cbn; congruence).
      clear IH. induction l as [|[k'' w'] l IH]; [done|].
      rewrite params_delete_cons, (filter_cons _ (k'', w')). cbn.
      destruct (decide (k'' = name)) as [->|].
      * by rewrite decide_False by congruence.
      * rewrite filter_cons. cbn. by rewrite IH.
    + rewrite !filter_cons. cbn. by rewrite IH.
Qed.

Lemma params_named_delete_ne name k l :
  k ≠ name →
  filter (λ kv, kv.1 = k) (URLSearchParams.delete name l)
  = filter (λ kv, kv.1 = k) l.
Proof.
  intros Hk. induction l as [|[k' w] l IH]; [done|].
  rewrite params_delete_cons, (filter_cons _ (k', w)). cbn.
  destruct (decide (k' = name)) as [->|].
  - by rewrite decide_False by congruence.
  - rewrite filter_cons. cbn. by rewrite IH.
Qed.

End params.

Section params_others.
Implicit Types (l : list (string * string)) (name k v w : string).

(** A selection that excludes [name] does not see [set name] nor
    [delete name]. *)
Lemma params_filter_set name v (P : string * string → Prop)
    `{!∀ kv, Decision (P kv)} l :
  (∀ kv, P kv → kv.1 ≠ name) →
  filter P (URLSearchParams.set name v l) = filter P l.
Proof.
  intros HP.
  rewrite <- (list_filter_filter_l P (λ kv, kv.1 ≠ name)
                (URLSearchParams.set name v l)) by done.
  change (filter (λ kv : string * string, kv.1 ≠ name)
            (URLSearchParams.set name v l))
    with (URLSearchParams.delete name (URLSearchParams.set name v l)).
  rewrite params_delete_set. unfold URLSearchParams.delete.
  by apply list_filter_filter_l.
Qed.

Lemma params_filter_delete name (P : string * string → Prop)
    `{!∀ kv, Decision (P kv)} l :
  (∀ kv, P kv → kv.1 ≠ name) →
  filter P (URLSearchParams.delete name l) = filter P l.
Proof. intros HP. unfold URLSearchParams.delete. by apply list_filter_filter_l. Qed.

Lemma params_get_named name l :
  URLSearchParams.get name l = snd <$> head (filter (λ kv, kv.1 = name) l).
Proof.
  induction l as [|[k w] l IH]; [done|].
  rewrite filter_cons. cbn [URLSearchParams.get fst].
  by destruct (decide (k = name)).
Qed.

Lemma params_has_get name l :
  URLSearchParams.get name l = None → URLSearchParams.has name l = false.
Proof.
  induction l as [|[k w] l IH]; [done|].
  rewrite params_has_cons. cbn [URLSearchParams.get].
  destruct (decide (k = name)); [done|]. intros Hl.
  by rewrite bool_decide_eq_false_2, IH.
Qed.

End params_others.

(** ** Strings *)

Lemma string_app_cons (c : ascii) (s1 s2 : string) :
  String c s1 +:+ s2 = String c (s1 +:+ s2).
Proof. reflexivity. Qed.

Lemma string_app_nil_r (s : string) : s +:+ "" = s.
Proof.
  induction s as [|c s IH]; [done|]. by rewrite string_app_cons, IH.
Qed.

Lemma string_app_assoc (s1 s2 s3 : string) :
  (s1 +:+ s2) +:+ s3 = s1 +:+ s2 +:+ s3.
Proof.
  induction s1 as [|c s1 IH]; [done|]. by rewrite !string_app_cons, IH.
Qed.

(** The serializer leaves the digits and the minus sign of a number as they
    are. *)
Lemma percent_encode_unreserved (c : ascii) (s : string) :
  URLSearchParams.unreserved c = true →
  URLSearchParams.percent_encode (String c s)
  = String c (URLSearchParams.percent_encode s).
Proof.
  intros Hc. cbn [URLSearchParams.percent_encode].
  unfold URLSearchParams.percent_encode_byte. by rewrite Hc.
Qed.

Lemma pretty_N_char_unreserved (d : N) :
  URLSearchParams.unreserved (pretty_N_char d) = true.
Proof. unfold pretty_N_char. by repeat case_match. Qed.

Lemma percent_encode_pretty_N_go (x : N) (s : string) :
  URLSearchParams.percent_encode s = s →
  URLSearchParams.percent_encode (pretty_N_go x s) = pretty_N_go x s.
Proof.
  revert s. induction (N.lt_wf_0 x) as [x _ IH]. intros s Hs.
  destruct (decide (x = 0%N)) as [->|Hx]; [by rewrite pretty_N_go_0|].
  rewrite pretty_N_go_step by lia. apply IH.
  - apply N.div_lt; lia.
  - rewrite percent_encode_unreserved by apply pretty_N_char_unreserved.
    by rewrite Hs.
Qed.

Lemma percent_encode_pretty_N (x : N) :
  URLSearchParams.percent_encode (pretty x) = pretty x.
Proof.
  unfold pretty, pretty_N. case_decide; [done|].
  by apply percent_encode_pretty_N_go.
Qed.

Lemma percent_encode_Number_toString (n : Z) :
  URLSearchParams.percent_encode (JSString.Number_toString n)
  = JSString.Number_toString n.
Proof.
  unfold JSString.Number_toString, pretty, pretty_Z.
  destruct n as [|p|p]; [done|apply percent_encode_pretty_N|].
  change ("-" +:+ pretty p) with (String "-" (pretty p)).
  rewrite percent_encode_unreserved by done. f_equal.
  apply percent_encode_pretty_N.
Qed.

Lemma toString_snoc (l : list (string * string)) (kv : string * string) :
  URLSearchParams.toString (l ++ [kv])
  = URLSearchParams.toString l +:+ (if l is [] then "" else "&")
    +:+ URLSearchParams.serialize_pair kv.
Proof.
  induction l as [|kv1 l IH]; [done|].
  destruct l as [|kv2 l]; [reflexivity|].
  change (URLSearchParams.toString ((kv1 :: kv2 :: l) ++ [kv]))
    with (URLSearchParams.serialize_pair kv1 +:+ "&"
          +:+ URLSearchParams.toString ((kv2 :: l) ++ [kv])).
  rewrite IH.
  change (URLSearchParams.toString (kv1 :: kv2 :: l))
    with (URLSearchParams.serialize_pair kv1 +:+ "&"
          +:+ URLSearchParams.toString (kv2 :: l)).
  by rewrite !string_app_assoc.
Qed.

(** ** Page links *)

(** X1: the parameters of the link to a page hold one pair named [page],
    whose value is the page as a string; the pairs of the other names are
    those of the current URL, in the same order. *)
Theorem createPageURL_params_page
    (searchParams : list (string * string)) (pageNumber : label) :
  let params := Pagination.createPageURL_params searchParams pageNumber in
  URLSearchParams.get "page" params = Some (label_toString pageNumber)
  ∧ filter (λ kv, kv.1 = "page") params = [("page", label_toString pageNumber)]
  ∧ filter (λ kv, kv.1 ≠ "page") params
    = filter (λ kv, kv.1 ≠ "page") searchParams.
Proof.
  cbn zeta. unfold Pagination.createPageURL_params, URLSearchParams.copy.
  split; [apply params_get_set_eq|].
  split; [apply params_named_set|apply params_delete_set].
Qed.

(** X2: when the current URL has no [page] parameter, the link to page [n],
    a safe integer, is the path, [?], the current parameters and [page=n]
    after them. *)
Theorem createPageURL_appends_page
    (searchParams : list (string * string)) (pathname : string) (n : Z) :
  Binary64.safe n →
  URLSearchParams.get "page" searchParams = None →
  Pagination.createPageURL searchParams pathname (LNum n)
  = pathname +:+ "?" +:+ URLSearchParams.toString searchParams
    +:+ (if searchParams is [] then "" else "&")
    +:+ "page=" +:+ JSString.Number_toString n.
Proof.
  intros _ Hpage.
  unfold Pagination.createPageURL, Pagination.createPageURL_params.
  unfold URLSearchParams.copy, URLSearchParams.set.
  rewrite params_has_get by done. rewrite toString_snoc.
  unfold URLSearchParams.serialize_pair. cbn [fst snd label_toString].
  by rewrite percent_encode_Number_toString.
Qed.

Lemma createPageURL_appends_page_witness :
  (Binary64.safe 12 ∧ URLSearchParams.get "page" [("query", "lee")] = None)
  ∧ Pagination.createPageURL [("query", "lee")] "/dashboard/invoices" (LNum 12)
    = "/dashboard/invoices?query=lee&page=12".
Proof.
  assert (Binary64.safe 12) as Hsafe.
  { unfold Binary64.safe, JS.MAX_SAFE_INTEGER. lia. }
  split; [by split|].
  by apply (createPageURL_appends_page
              [("query", "lee")] "/dashboard/invoices" 12).
Defined.

(** X3: the link to a page does not depend on the page of the current URL:
    computed after a move to any page [a], the link to [b] is the link to
    [b] computed before the move. *)
Theorem createPageURL_after_move
    (searchParams : list (string * string)) (pathname : string) (a b : label) :
  Pagination.createPageURL
    (Pagination.createPageURL_params searchParams a) pathname b
  = Pagination.createPageURL searchParams pathname b.
Proof.
  unfold Pagination.createPageURL, Pagination.createPageURL_params.
  unfold URLSearchParams.copy. by rewrite params_set_set.
Qed.

(** ** Searching *)

Lemma ToBoolean_empty (s : string) : JSString.ToBoolean s = false ↔ s = "".
Proof. by destruct s. Qed.

(** X4: a search asks the router for the URL whose parameters are: one pair
    [page=1]; one pair [query=term] when [term] is not empty and no pair
    named [query] when it is; the pairs of the other names as the current
    URL has them. *)
Theorem handleSearch_resets_page
    (searchParams : list (string * string)) (pathname term : string) :
  let params := Search.handleSearch_params searchParams term in
  Search.handleSearch searchParams pathname term
  = [ Search.console_log ("Searching... " +:+ term);
      Search.replace (pathname +:+ "?" +:+ URLSearchParams.toString params) ]
  ∧ filter (λ kv, kv.1 = "page") params = [("page", "1")]
  ∧ filter (λ kv, kv.1 = "query") params
    = (if decide (term = "") then [] else [("query", term)])
  ∧ filter (λ kv, kv.1 ≠ "page" ∧ kv.1 ≠ "query") params
    = filter (λ kv, kv.1 ≠ "page" ∧ kv.1 ≠ "query") searchParams.
Proof.
  cbn zeta. split; [reflexivity|].
  unfold Search.handleSearch_params, URLSearchParams.copy.
  destruct (JSString.ToBoolean term) eqn:Hterm.
  - assert (term ≠ "") as Hne by (by intros ->).
    split; [|split].
    + rewrite params_filter_set by (by intros [k v] ->).
      apply params_named_set.
    + rewrite decide_False by done. apply params_named_set.
    + rewrite !params_filter_set; [done|by intros kv [? ?]..].
  - apply ToBoolean_empty in Hterm as ->.
    split; [|split].
    + rewrite params_filter_delete by (by intros [k v] ->).
      apply params_named_set.
    + apply params_named_delete.
    + rewrite params_filter_delete, params_filter_set;
        [done|by intros kv [? ?]..].
Qed.

(** X5: the input and the page links agree with a search: on the page the
    search leads to, the input shows the term (nothing for an empty term)
    and the URL names page [1]. *)
Theorem handleSearch_defaultValue
    (searchParams : list (string * string)) (term : string) :
  let params := Search.handleSearch_params searchParams term in
  Search.defaultValue params = (if decide (term = "") then None else Some term)
  ∧ URLSearchParams.get "page" params = Some "1".
Proof.
  cbn zeta. unfold Search.defaultValue.
  unfold Search.handleSearch_params, URLSearchParams.copy.
  destruct (JSString.ToBoolean term) eqn:Hterm.
  - assert (term ≠ "") as Hne by (by intros ->).
    rewrite decide_False by done. split; [apply params_get_set_eq|].
    rewrite params_get_set_ne by done. apply params_get_set_eq.
  - apply ToBoolean_empty in Hterm as ->.
    split; [apply params_get_delete_eq|].
    rewrite params_get_delete_ne by done. apply params_get_set_eq.
Qed.

(** X6: searching the same term again leaves the parameters as they are:
    the URL a search leads to is a fixed point of that search. *)
Theorem handleSearch_params_idempotent
    (searchParams : list (string * string)) (term : string) :
  Search.handleSearch_params (Search.handleSearch_params searchParams term) term
  = Search.handleSearch_params searchParams term.
Proof.
  unfold Search.handleSearch_params, URLSearchParams.copy.
  destruct (JSString.ToBoolean term) eqn:Hterm.
  - rewrite (params_set_id "page" "1").
    + apply params_set_set.
    + rewrite params_filter_set by (by intros [k v] ->).
      apply params_named_set.
  - rewrite (params_set_id "page" "1").
    + apply params_delete_delete.
    + rewrite params_filter_delete by (by intros [k v] ->).
      apply params_named_set.
Qed.

(** X7: the page links keep the search: after a search for a term that is
    not empty, the link to any page still carries [query=term], beside the
    page it leads to. *)
Theorem createPageURL_keeps_query
    (searchParams : list (string * string)) (term : string) (pageNumber : label) :
  term ≠ "" →
  let params :=
    Pagination.createPageURL_params
      (Search.handleSearch_params searchParams term) pageNumber in
  Search.defaultValue params = Some term
  ∧ URLSearchParams.get "page" params = Some (label_toString pageNumber).
Proof.
  intros Hterm. cbn zeta.
  unfold Search.defaultValue, Pagination.createPageURL_params.
  unfold URLSearchParams.copy. split; [|apply params_get_set_eq].
  rewrite params_get_set_ne by done.
  unfold Search.handleSearch_params, URLSearchParams.copy.
  destruct (JSString.ToBoolean term) eqn:Hb.
  - apply params_get_set_eq.
  - by apply ToBoolean_empty in Hb.
Qed.

Lemma createPageURL_keeps_query_witness :
  "lee" ≠ ""
  ∧ Search.defaultValue
      (Pagination.createPageURL_params
         (Search.handleSearch_params [("page", "4"); ("query", "amy")] "lee")
         (LNum 2)) = Some "lee"
  ∧ URLSearchParams.get "page"
      (Pagination.createPageURL_params
         (Search.handleSearch_params [("page", "4"); ("query", "amy")] "lee")
         (LNum 2)) = Some (label_toString (LNum 2)).
Proof.
  split; [done|].
  apply (createPageURL_keeps_query [("page", "4"); ("query", "amy")] "lee" (LNum 2)).
  done.
Defined.

(** ** The window for any current page

    The component does not clamp [currentPage]; what follows holds for every
    integer, also outside [1, totalPages]. *)

Lemma window_head (c t : Z) :
  1 ≤ t → head (generatePagination c t) = Some (LNum 1).
Proof.
  intros Ht. window_cases c t; [|done..].
  by rewrite seqZ_cons by lia.
Qed.

Lemma window_last (c t : Z) :
  1 ≤ t → last (generatePagination c t) = Some (LNum t).
Proof.
  intros Ht. window_cases c t; [|done..].
  rewrite fmap_last, last_seqZ by lia. cbn. do 2 f_equal. lia.
Qed.

Lemma window_length_small (c t : Z) :
  0 ≤ t ≤ 7 → Z.of_nat (length (generatePagination c t)) = t.
Proof.
  intros Ht. rewrite generatePagination_small by lia.
  rewrite length_fmap, length_seqZ. lia.
Qed.

Lemma window_length_large (c t : Z) :
  7 < t → (6 ≤ length (generatePagination c t) ≤ 7)%nat.
Proof. intros Ht. window_cases c t; [lia|cbn; lia..]. Qed.

Lemma window_numbers_sorted (c t : Z) :
  StronglySorted Z.lt (page_numbers (generatePagination c t)).
Proof.
  window_cases c t; [|cbn; sorted_bounds..].
  rewrite page_numbers_LNum. apply seqZ_increasing.
Qed.

Lemma window_numbers_bounds (c t : Z) :
  Forall (λ n, 1 ≤ n ≤ t) (page_numbers (generatePagination c t)).
Proof.
  window_cases c t; [|cbn; sorted_bounds..].
  rewrite page_numbers_LNum. apply Forall_seqZ. lia.
Qed.

Lemma window_no_pair (c t : Z) : ¬ adjacent_ellipses (generatePagination c t).
Proof.
  window_cases c t; [apply small_window_no_pair|..];
    intros (i & H1 & H2); no_ellipsis_pair H1 H2 i.
Qed.

Lemma window_shows_current (c t : Z) :
  1 ≤ c ≤ t → c ∈ page_numbers (generatePagination c t).
Proof.
  intros Hc. window_cases c t.
  - rewrite page_numbers_LNum. apply elem_of_seqZ. lia.
  - cbn. assert (c = 1 ∨ c = 2 ∨ c = 3) as [-> | [-> | ->]] by lia;
      rewrite !elem_of_cons; auto.
  - cbn. assert (c = t - 2 ∨ c = t - 1 ∨ c = t) as [-> | [-> | ->]] by lia;
      rewrite !elem_of_cons; auto 6.
  - cbn. rewrite !elem_of_cons. auto.
Qed.

(** ** The rendered page numbers *)

Lemma filter_eq_sorted (c : Z) (l : list Z) :
  StronglySorted Z.lt l →
  filter (λ n, n = c) l = if decide (c ∈ l) then [c] else [].
Proof.
  induction 1 as [|x l Hl IH Hx]; [done|].
  rewrite filter_cons, IH. destruct (decide (x = c)) as [->|Hxc].
  - destruct (decide (c ∈ l)) as [Hc|_].
    { rewrite Forall_forall in Hx. specialize (Hx c Hc). lia. }
    destruct (decide (c ∈ c :: l)) as [_|Hn]; [done|]. destruct Hn. left.
  - destruct (decide (c ∈ l)), (decide (c ∈ x :: l)) as [Hin|Hn]; try done.
    + destruct Hn. by right.
    + apply elem_of_cons in Hin as [->|?]; done.
Qed.

Lemma current_filter (c : Z) (w : list label) :
  filter (λ p, Pagination.is_current c p = true) w
  = LNum <$> filter (λ n, n = c) (page_numbers w).
Proof.
  induction w as [|[n|s] w IH]; [done|..].
  - change (page_numbers (LNum n :: w)) with (n :: page_numbers w).
    rewrite !filter_cons, IH. cbn [Pagination.is_current].
    destruct (Z.eqb_spec c n) as [->|Hn].
    + by rewrite !decide_True.
    + rewrite !decide_False; [done|congruence|done].
  - change (page_numbers (LStr s :: w)) with (page_numbers w).
    by rewrite filter_cons_False.
Qed.

Lemma active_pages (g : nat → label → Pagination.number_props) (c : Z)
    (w : list label) :
  (∀ i p, Pagination.page (g i p) = p) →
  (∀ i p, Pagination.isActive (g i p) = Pagination.is_current c p) →
  Pagination.page <$> filter (λ item, Pagination.isActive item = true) (imap g w)
  = filter (λ p, Pagination.is_current c p = true) w.
Proof.
  intros Hpage Hact. revert g Hpage Hact.
  induction w as [|p w IH]; intros g Hpage Hact; [done|].
  rewrite imap_cons, !filter_cons, Hact.
  rewrite <- (IH (g ∘ S)) by (intros; cbn; auto).
  destruct (decide (Pagination.is_current c p = true)); [|done].
  by rewrite fmap_cons, Hpage.
Qed.

Lemma numbers_lookup (searchParams : list (string * string)) (pathname : string)
    (c t : Z) (i : nat) (item : Pagination.number_props) :
  Pagination.numbers (Pagination.Pagination searchParams pathname c t) !! i
  = Some item →
  ∃ p, generatePagination c t !! i = Some p
    ∧ Pagination.key item
      = label_toString p +:+ "-" +:+ JSString.Number_toString (Z.of_nat i)
    ∧ Pagination.page item = p
    ∧ Pagination.position item
      = Pagination.number_position (Z.of_nat i)
          (Z.of_nat (length (generatePagination c t))) p.
Proof.
  cbn [Pagination.numbers Pagination.Pagination].
  intros (p & Hp & ->)%list_lookup_imap_Some. by exists p.
Qed.

Lemma numbers_active_pages
    (searchParams : list (string * string)) (pathname : string) (c t : Z) :
  Pagination.page
    <$> filter (λ item, Pagination.isActive item = true)
          (Pagination.numbers (Pagination.Pagination searchParams pathname c t))
  = if decide (1 ≤ c ≤ t) then [LNum c] else [].
Proof.
  cbn [Pagination.numbers Pagination.Pagination].
  rewrite (active_pages _ c) by done.
  rewrite current_filter, filter_eq_sorted by apply window_numbers_sorted.
  destruct (decide (1 ≤ c ≤ t)) as [Hc|Hc].
  - by rewrite decide_True by by apply window_shows_current.
  - rewrite decide_False; [done|]. intros Hin.
    pose proof (window_numbers_bounds c t) as Hb.
    rewrite Forall_forall in Hb. by apply Hb in Hin.
Qed.

(** X9: when the page of the URL is an integer and the page count is a safe
    integer, the rendered page numbers mark the current page and nothing
    else: for [currentPage] in [1, totalPages] exactly one of them is active
    and it is the number [currentPage]; beyond [totalPages] none is. *)
Theorem Pagination_active
    (searchParams : list (string * string)) (pathname : string) (c t : Z) :
  Pagination.currentPage searchParams = Some c →
  t ≤ JS.MAX_SAFE_INTEGER →
  Pagination.page
    <$> filter (λ item, Pagination.isActive item = true)
          (Pagination.numbers (Pagination.Pagination searchParams pathname c t))
  = if decide (1 ≤ c ≤ t) then [LNum c] else [].
Proof. intros _ _. apply numbers_active_pages. Qed.

Lemma Pagination_active_witness :
  (Pagination.currentPage [("query", "lee"); ("page", "6")] = Some 6
   ∧ 12 ≤ JS.MAX_SAFE_INTEGER)
  ∧ Pagination.page
      <$> filter (λ item, Pagination.isActive item = true)
            (Pagination.numbers
               (Pagination.Pagination [("query", "lee"); ("page", "6")]
                  "/dashboard/invoices" 6 12))
    = if decide (1 ≤ 6 ≤ 12) then [LNum 6] else [].
Proof.
  assert (12 ≤ JS.MAX_SAFE_INTEGER) as Hsafe.
  { unfold JS.MAX_SAFE_INTEGER. lia. }
  split; [by split|].
  by apply (Pagination_active [("query", "lee"); ("page", "6")]
              "/dashboard/invoices" 6 12).
Defined.

(** X10: with two pages or more, the first rendered number has position
    [first], the last one has position [last], and between them an ellipsis
    has position [middle] and a number has none; with one page the only
    number has position [single].  This holds for every current page. *)
Theorem Pagination_positions
    (searchParams : list (string * string)) (pathname : string) (c t : Z) :
  1 ≤ t →
  let numbers :=
    Pagination.numbers (Pagination.Pagination searchParams pathname c t) in
  (t = 1 → Pagination.position <$> numbers = [Some Position.single])
  ∧ (2 ≤ t → ∀ (i : nat) item,
       numbers !! i = Some item →
       Pagination.position item
       = if decide (i = 0%nat) then Some Position.first
         else if decide (S i = length numbers) then Some Position.last
         else if decide (Pagination.page item = ellipsis)
              then Some Position.middle
              else None).
Proof.
  intros Ht. cbn zeta. split.
  { intros ->. cbn [Pagination.numbers Pagination.Pagination].
    by rewrite generatePagination_small by lia. }
  intros Ht2 i item Hitem.
  destruct (numbers_lookup _ _ _ _ _ _ Hitem) as (p & Hp & _ & -> & ->).
  cbn [Pagination.numbers Pagination.Pagination]. rewrite length_imap.
  pose proof (window_head c t Ht) as Hhead. rewrite head_lookup in Hhead.
  pose proof (window_last c t Ht) as Hlast. rewrite last_lookup in Hlast.
  assert (2 ≤ length (generatePagination c t))%nat as Hlen.
  { destruct (Z_le_gt_dec t 7).
    - pose proof (window_length_small c t). lia.
    - pose proof (window_length_large c t). lia. }
  unfold Pagination.number_position.
  destruct (decide (i = 0%nat)) as [->|Hi0].
  - rewrite Hhead in Hp. injection Hp as <-.
    rewrite bool_decide_eq_false_2 by done.
    destruct (Z.eqb_spec (Z.of_nat (length (generatePagination c t))) 1); [lia|].
    destruct (Z.eqb_spec (Z.of_nat 0)
                (Z.of_nat (length (generatePagination c t)) - 1)); [lia|].
    done.
  - destruct (Z.eqb_spec (Z.of_nat i) 0); [lia|].
    destruct (Z.eqb_spec (Z.of_nat (length (generatePagination c t))) 1); [lia|].
    destruct (decide (S i = length (generatePagination c t))) as [Hil|Hil].
    + replace (Init.Nat.pred (length (generatePagination c t))) with i in Hlast
        by lia.
      rewrite Hlast in Hp. injection Hp as <-.
      rewrite bool_decide_eq_false_2 by done.
      destruct (Z.eqb_spec (Z.of_nat i)
                  (Z.of_nat (length (generatePagination c t)) - 1)); [done|lia].
    + destruct (Z.eqb_spec (Z.of_nat i)
                  (Z.of_nat (length (generatePagination c t)) - 1)); [lia|].
      destruct (decide (p = ellipsis)).
      * by rewrite bool_decide_eq_true_2.
      * by rewrite bool_decide_eq_false_2.
Qed.

Lemma Pagination_positions_witness :
  1 ≤ 12
  ∧ let numbers :=
      Pagination.numbers
        (Pagination.Pagination [("query", "lee")] "/dashboard/invoices" 6 12) in
    (12 = 1 → Pagination.position <$> numbers = [Some Position.single])
    ∧ (2 ≤ 12 → ∀ (i : nat) item,
         numbers !! i = Some item →
         Pagination.position item
         = if decide (i = 0%nat) then Some Position.first
           else if decide (S i = length numbers) then Some Position.last
           else if decide (Pagination.page item = ellipsis)
                then Some Position.middle
                else None).
Proof.
  split; [lia|].
  apply (Pagination_positions [("query", "lee")] "/dashboard/invoices" 6 12).
  lia.
Defined.

(** ** Keys of the rendered page numbers *)

Local Abbreviation chars := Stdlib.Strings.String.list_ascii_of_string.

Lemma chars_app (s1 s2 : string) :
  chars (s1 +:+ s2)
  = chars s1 ++ chars s2.
Proof.
  induction s1 as [|c s1 IH]; [done|].
  rewrite string_app_cons. cbn. by rewrite IH.
Qed.

(** Two lists cut at a separator that their right parts do not hold have
    the same right part. *)
Lemma suffix_after_separator {A : Type} (x : A) (a b d1 d2 : list A) :
  x ∉ d1 → x ∉ d2 → a ++ x :: d1 = b ++ x :: d2 → d1 = d2.
Proof.
  intros H1 H2. revert b. induction a as [|y a IH]; intros [|z b] Heq.
  - by injection Heq.
  - injection Heq as <- ->. destruct H1. apply elem_of_app. right. left.
  - injection Heq as -> <-. destruct H2. apply elem_of_app. right. left.
  - injection Heq as _ Heq. by apply (IH b).
Qed.

Lemma pretty_N_char_not_dash (d : N) : pretty_N_char d ≠ "-"%char.
Proof. unfold pretty_N_char. by repeat case_match. Qed.

Lemma pretty_N_go_no_dash (x : N) (s : string) :
  "-"%char ∉ chars s →
  "-"%char ∉ chars (pretty_N_go x s).
Proof.
  revert s. induction (N.lt_wf_0 x) as [x _ IH]. intros s Hs.
  destruct (decide (x = 0%N)) as [->|Hx]; [by rewrite pretty_N_go_0|].
  rewrite pretty_N_go_step by lia. apply IH.
  - apply N.div_lt; lia.
  - cbn. apply not_elem_of_cons. split; [|done].
    intros Heq. by apply (pretty_N_char_not_dash (x `mod` 10)%N).
Qed.

Lemma index_toString_no_dash (i : nat) :
  "-"%char ∉ chars (JSString.Number_toString (Z.of_nat i)).
Proof.
  unfold JSString.Number_toString, pretty, pretty_Z.
  destruct (Z.of_nat i) as [|p|p] eqn:Hi; [|..|lia].
  - cbn. by intros [?|[]%elem_of_nil]%elem_of_cons.
  - unfold pretty, pretty_positive, pretty, pretty_N.
    rewrite decide_False by done.
    apply pretty_N_go_no_dash. cbn. apply not_elem_of_nil.
Qed.

Lemma key_index (s1 s2 : string) (i j : nat) :
  s1 +:+ "-" +:+ JSString.Number_toString (Z.of_nat i)
  = s2 +:+ "-" +:+ JSString.Number_toString (Z.of_nat j) →
  i = j.
Proof.
  intros Heq. apply (f_equal chars) in Heq.
  rewrite !chars_app in Heq. cbn in Heq.
  apply suffix_after_separator in Heq; [|apply index_toString_no_dash..].
  apply (f_equal Stdlib.Strings.String.string_of_list_ascii) in Heq.
  rewrite !Stdlib.Strings.String.string_of_list_ascii_of_string in Heq.
  apply (inj pretty) in Heq. lia.
Qed.

(** X11: the keys given to the rendered page numbers are pairwise
    distinct, whatever the window holds. *)
Theorem Pagination_keys_distinct
    (searchParams : list (string * string)) (pathname : string) (c t : Z) :
  NoDup (Pagination.key
           <$> Pagination.numbers
                 (Pagination.Pagination searchParams pathname c t)).
Proof.
  apply NoDup_alt. intros i j k Hi Hj.
  rewrite list_lookup_fmap in Hi, Hj.
  destruct (_ !! i) as [item1|] eqn:H1; [|done].
  destruct (_ !! j) as [item2|] eqn:H2; [|done].
  apply numbers_lookup in H1 as (p1 & _ & Hk1 & _).
  apply numbers_lookup in H2 as (p2 & _ & Hk2 & _).
  cbn in Hi, Hj. apply (key_index (label_toString p1) (label_toString p2)).
  congruence.
Qed.

(** ** Pages of rows *)

Section rows.
Context {row : Type}.
Implicit Types (matching rows : list row) (c : Z).

(** The bounds that make [fetchInvoicesPages] a ceiling. *)
Lemma fetchInvoicesPages_bounds matching :
  Z.of_nat (length matching) ≤ 6 * Data.fetchInvoicesPages matching
  < Z.of_nat (length matching) + 6.
Proof.
  unfold Data.fetchInvoicesPages, Data.Math_ceil_div, Data.ITEMS_PER_PAGE.
  pose proof (Z.div_mod (- Z.of_nat (length matching)) 6).
  pose proof (Z.mod_pos_bound (- Z.of_nat (length matching)) 6).
  lia.
Qed.

Lemma fetchFilteredInvoices_Some matching c :
  1 ≤ c →
  Data.fetchFilteredInvoices matching c
  = Some (take 6 (drop (Z.to_nat ((c - 1) * 6)) matching)).
Proof.
  intros Hc. unfold Data.fetchFilteredInvoices, Data.limit_offset.
  unfold Data.ITEMS_PER_PAGE.
  destruct (Z.ltb_spec ((c - 1) * 6) 0); [lia|reflexivity].
Qed.

Lemma fetchFilteredInvoices_None matching c :
  c ≤ 0 → Data.fetchFilteredInvoices matching c = None.
Proof.
  intros Hc. unfold Data.fetchFilteredInvoices, Data.limit_offset.
  unfold Data.ITEMS_PER_PAGE.
  destruct (Z.ltb_spec ((c - 1) * 6) 0); [reflexivity|lia].
Qed.

Lemma page_length matching c :
  1 ≤ c →
  length (take 6 (drop (Z.to_nat ((c - 1) * 6)) matching))
  = Z.to_nat (Z.min 6 (Z.max 0 (Z.of_nat (length matching) - (c - 1) * 6))).
Proof. intros Hc. rewrite length_take, length_drop. lia. Qed.

(** A page has rows exactly when its number is at most the page count. *)
Lemma page_nonempty matching c rows :
  Data.fetchFilteredInvoices matching c = Some rows →
  rows ≠ [] ↔ 1 ≤ c ≤ Data.fetchInvoicesPages matching.
Proof.
  intros Hrows. pose proof (fetchInvoicesPages_bounds matching) as Ht.
  destruct (Z_le_gt_dec c 0) as [Hc|Hc].
  { by rewrite fetchFilteredInvoices_None in Hrows. }
  rewrite fetchFilteredInvoices_Some in Hrows by lia.
  injection Hrows as <-.
  pose proof (page_length matching c ltac:(lia)) as Hlen.
  split.
  - intros Hne. split; [lia|].
    destruct (take 6 _) as [|r rows]; [done|]. cbn in Hlen. lia.
  - intros Hct Hnil. rewrite Hnil in Hlen. cbn in Hlen. lia.
Qed.

Lemma pages_concat matching (k : nat) :
  concat ((λ c, take 6 (drop (Z.to_nat ((c - 1) * 6)) matching))
            <$> seqZ 1 (Z.of_nat k))
  = take (6 * k) matching.
Proof.
  induction k as [|k IH]; [done|].
  rewrite seqZ_S, fmap_app, concat_app, IH. cbn [fmap list_fmap concat].
  rewrite app_nil_r.
  replace (Z.to_nat ((1 + Z.of_nat k - 1) * 6)) with (6 * k)%nat by lia.
  rewrite take_take_drop. f_equal. lia.
Qed.

End rows.

(** X12: the page count is the least number of pages of six rows that
    hold all the matching rows; it is [0] exactly when no row matches. *)
Theorem fetchInvoicesPages_least {row : Type} (matching : list row) :
  let n := Z.of_nat (length matching) in
  let totalPages := Data.fetchInvoicesPages matching in
  n ≤ 6 * totalPages
  ∧ (∀ k : Z, n ≤ 6 * k → totalPages ≤ k)
  ∧ (totalPages = 0 ↔ matching = []).
Proof.
  cbn zeta. pose proof (fetchInvoicesPages_bounds matching) as Ht.
  split; [lia|]. split; [intros k Hk; lia|].
  split.
  - intros H0. destruct matching; [done|]. cbn in Ht. lia.
  - by intros ->.
Qed.

(** X13: when the page of the URL is an integer [c >= 1] whose offset
    [(c - 1) * 6] is a safe integer, the request succeeds and returns at
    most six rows: six on every page before the last one, between one and
    six on the last one (what is left after the full pages), none after
    it. *)
Theorem fetchFilteredInvoices_page_size {row : Type}
    (matching : list row) (page : option string) (c : Z) :
  Page.currentPage page = Some c →
  1 ≤ c →
  (c - 1) * Data.ITEMS_PER_PAGE ≤ JS.MAX_SAFE_INTEGER →
  let totalPages := Data.fetchInvoicesPages matching in
  ∃ rows,
    Data.fetchFilteredInvoices matching c = Some rows
    ∧ (length rows ≤ 6)%nat
    ∧ (c < totalPages → length rows = 6%nat)
    ∧ (c = totalPages →
       1 ≤ Z.of_nat (length rows)
       ∧ Z.of_nat (length rows)
         = Z.of_nat (length matching) - 6 * (totalPages - 1))
    ∧ (totalPages < c → rows = []).
Proof.
  intros _ Hc _. cbn zeta.
  pose proof (fetchInvoicesPages_bounds matching) as Ht.
  pose proof (page_length matching c Hc) as Hlen.
  eexists. split; [by apply fetchFilteredInvoices_Some|].
  split; [lia|]. split; [lia|]. split; [lia|].
  intros Hlt. apply nil_length_inv. lia.
Qed.

Lemma fetchFilteredInvoices_page_size_witness :
  (Page.currentPage (Some "3") = Some 3
   ∧ 1 ≤ 3 ∧ (3 - 1) * Data.ITEMS_PER_PAGE ≤ JS.MAX_SAFE_INTEGER)
  ∧ let totalPages := Data.fetchInvoicesPages (seq 0 14) in
    ∃ rows,
      Data.fetchFilteredInvoices (seq 0 14) 3 = Some rows
      ∧ (length rows ≤ 6)%nat
      ∧ (3 < totalPages → length rows = 6%nat)
      ∧ (3 = totalPages →
         1 ≤ Z.of_nat (length rows)
         ∧ Z.of_nat (length rows)
           = Z.of_nat (length (seq 0 14)) - 6 * (totalPages - 1))
      ∧ (totalPages < 3 → rows = []).
Proof.
  assert ((3 - 1) * Data.ITEMS_PER_PAGE ≤ JS.MAX_SAFE_INTEGER) as Hsafe.
  { unfold Data.ITEMS_PER_PAGE, JS.MAX_SAFE_INTEGER. lia. }
  split; [split; [reflexivity|split; [lia|done]]|].
  apply (fetchFilteredInvoices_page_size (seq 0 14) (Some "3") 3);
    [reflexivity|lia|done].
Defined.

(** X14: when the page of the URL is an integer whose offset [(c - 1) * 6]
    is at most [2^53 - 1], the request fails exactly for the pages below
    [1] ([page=-2]): their offset is negative, which the database rejects,
    and the function has no guard. *)
Theorem fetchFilteredInvoices_fails {row : Type}
    (matching : list row) (page : option string) (c : Z) :
  Page.currentPage page = Some c →
  (c - 1) * Data.ITEMS_PER_PAGE ≤ JS.MAX_SAFE_INTEGER →
  Data.fetchFilteredInvoices matching c = None ↔ c ≤ 0.
Proof.
  intros _ _. split; [|apply fetchFilteredInvoices_None].
  intros Hnone. destruct (Z_le_gt_dec c 0) as [Hc|Hc]; [done|].
  by rewrite fetchFilteredInvoices_Some in Hnone by lia.
Qed.

Lemma fetchFilteredInvoices_fails_witness :
  (Page.currentPage (Some "-2") = Some (-2)
   ∧ (-2 - 1) * Data.ITEMS_PER_PAGE ≤ JS.MAX_SAFE_INTEGER)
  ∧ (Data.fetchFilteredInvoices (seq 0 14) (-2) = None ↔ -2 ≤ 0).
Proof.
  assert ((-2 - 1) * Data.ITEMS_PER_PAGE ≤ JS.MAX_SAFE_INTEGER) as Hsafe.
  { unfold Data.ITEMS_PER_PAGE, JS.MAX_SAFE_INTEGER. lia. }
  split; [split; [reflexivity|done]|].
  by apply (fetchFilteredInvoices_fails (seq 0 14) (Some "-2") (-2)).
Defined.

(** X15: when the database gives the matching rows in the same order to
    every request, the pages [1] to [totalPages] are the matching rows cut
    in consecutive pieces: every row is on one page, none is on two. *)
Theorem fetchFilteredInvoices_pages_cover {row : Type} (matching : list row) :
  ∃ pages : list (list row),
    Data.fetchFilteredInvoices matching
      <$> seqZ 1 (Data.fetchInvoicesPages matching)
    = Some <$> pages
    ∧ concat pages = matching.
Proof.
  pose proof (fetchInvoicesPages_bounds matching) as Ht.
  exists ((λ c, take 6 (drop (Z.to_nat ((c - 1) * 6)) matching))
            <$> seqZ 1 (Data.fetchInvoicesPages matching)).
  split.
  - rewrite <- list_fmap_compose. apply list_fmap_ext.
    intros i c [-> _]%lookup_seqZ. cbn.
    apply fetchFilteredInvoices_Some. lia.
  - rewrite <- (Z2Nat.id (Data.fetchInvoicesPages matching)) by lia.
    rewrite pages_concat. apply take_ge. lia.
Qed.

(** ** The pager and the rows it leads to *)

(** X16: the pager shows no page number exactly when no row matches, for
    every current page; on page [1] of an empty result both arrows are
    disabled. *)
Theorem Pagination_empty_result {row : Type} (matching : list row)
    (searchParams : list (string * string)) (pathname : string) :
  let totalPages := Data.fetchInvoicesPages matching in
  (∀ c, Pagination.numbers
          (Pagination.Pagination searchParams pathname c totalPages) = []
        ↔ matching = [])
  ∧ (matching = [] →
     let v := Pagination.Pagination searchParams pathname 1 totalPages in
     Pagination.isDisabled (Pagination.previous v) = true
     ∧ Pagination.isDisabled (Pagination.next v) = true).
Proof.
  cbn zeta. pose proof (fetchInvoicesPages_bounds matching) as Ht.
  split; [|by intros ->].
  intros c. split; [|by intros ->].
  intros Hnil. apply (f_equal length) in Hnil.
  cbn [Pagination.numbers Pagination.Pagination] in Hnil.
  rewrite length_imap in Hnil.
  destruct (Z_le_gt_dec (Data.fetchInvoicesPages matching) 7).
  - pose proof (window_length_small c (Data.fetchInvoicesPages matching)).
    destruct matching; [done|]. cbn in Ht, Hnil. lia.
  - pose proof (window_length_large c (Data.fetchInvoicesPages matching)).
    cbn in Hnil. lia.
Qed.

(** X17: when the page of the URL is an integer, its offset and the number
    of matching rows being safe integers, the pager marks the current page
    exactly when the table has rows for it: the rows of the request are not
    empty if and only if the one active page number is [currentPage]. *)
Theorem Pagination_active_iff_rows {row : Type} (matching rows : list row)
    (searchParams : list (string * string)) (pathname : string) (c : Z) :
  Pagination.currentPage searchParams = Some c →
  (c - 1) * Data.ITEMS_PER_PAGE ≤ JS.MAX_SAFE_INTEGER →
  Z.of_nat (length matching) ≤ JS.MAX_SAFE_INTEGER →
  Data.fetchFilteredInvoices matching c = Some rows →
  rows ≠ []
  ↔ Pagination.page
      <$> filter (λ item, Pagination.isActive item = true)
            (Pagination.numbers
               (Pagination.Pagination searchParams pathname c
                  (Data.fetchInvoicesPages matching)))
    = [LNum c].
Proof.
  intros _ _ _ Hrows. rewrite numbers_active_pages.
  rewrite (page_nonempty matching c rows Hrows).
  by destruct (decide (1 ≤ c ≤ Data.fetchInvoicesPages matching)).
Qed.

Lemma Pagination_active_iff_rows_witness :
  (Pagination.currentPage [("page", "3")] = Some 3
   ∧ (3 - 1) * Data.ITEMS_PER_PAGE ≤ JS.MAX_SAFE_INTEGER
   ∧ Z.of_nat (length (seq 0 14)) ≤ JS.MAX_SAFE_INTEGER
   ∧ Data.fetchFilteredInvoices (seq 0 14) 3 = Some [12; 13]%nat)
  ∧ ([12; 13]%nat ≠ []
     ↔ Pagination.page
         <$> filter (λ item, Pagination.isActive item = true)
               (Pagination.numbers
                  (Pagination.Pagination [("page", "3")] "/dashboard/invoices"
                     3 (Data.fetchInvoicesPages (seq 0 14))))
       = [LNum 3]).
Proof.
  assert ((3 - 1) * Data.ITEMS_PER_PAGE ≤ JS.MAX_SAFE_INTEGER) as Hoffset.
  { unfold Data.ITEMS_PER_PAGE, JS.MAX_SAFE_INTEGER. lia. }
  assert (Z.of_nat (length (seq 0 14)) ≤ JS.MAX_SAFE_INTEGER) as Hcount.
  { unfold JS.MAX_SAFE_INTEGER. cbn. lia. }
  split; [by repeat split|].
  by apply (Pagination_active_iff_rows (seq 0 14) [12; 13]%nat
              [("page", "3")] "/dashboard/invoices" 3).
Defined.

(** X18: when the page of the URL is an integer in range and the number of
    matching rows is a safe integer with room for one more page, an arrow
    is enabled exactly when the page it leads to has rows. *)
Theorem Pagination_arrows_lead_to_rows {row : Type} (matching : list row)
    (searchParams : list (string * string)) (pathname : string) (c : Z) :
  Pagination.currentPage searchParams = Some c →
  Z.of_nat (length matching) + Data.ITEMS_PER_PAGE ≤ JS.MAX_SAFE_INTEGER →
  1 ≤ c ≤ Data.fetchInvoicesPages matching →
  let v :=
    Pagination.Pagination searchParams pathname c
      (Data.fetchInvoicesPages matching) in
  (Pagination.isDisabled (Pagination.previous v) = false
   ↔ ∃ rows, Data.fetchFilteredInvoices matching (c - 1) = Some rows
             ∧ rows ≠ [])
  ∧ (Pagination.isDisabled (Pagination.next v) = false
     ↔ ∃ rows, Data.fetchFilteredInvoices matching (c + 1) = Some rows
               ∧ rows ≠ []).
Proof.
  intros _ _ Hc. cbn zeta.
  cbn [Pagination.isDisabled Pagination.previous Pagination.next
       Pagination.Pagination].
  split.
  - destruct (Z.leb_spec c 1) as [Hc1|Hc1].
    + split; [done|]. intros (rows & Hrows & _).
      by rewrite fetchFilteredInvoices_None in Hrows by lia.
    + split; [intros _|done].
      eexists. split; [apply fetchFilteredInvoices_Some; lia|].
      eapply page_nonempty; [apply fetchFilteredInvoices_Some; lia|lia].
  - rewrite Z.geb_leb.
    destruct (Z.leb_spec (Data.fetchInvoicesPages matching) c) as [Hct|Hct].
    + split; [done|]. intros (rows & Hrows & Hne).
      apply (page_nonempty matching (c + 1) rows Hrows) in Hne. lia.
    + split; [intros _|done].
      eexists. split; [apply fetchFilteredInvoices_Some; lia|].
      eapply page_nonempty; [apply fetchFilteredInvoices_Some; lia|lia].
Qed.

Lemma Pagination_arrows_lead_to_rows_witness :
  (Pagination.currentPage [("page", "3")] = Some 3
   ∧ Z.of_nat (length (seq 0 14)) + Data.ITEMS_PER_PAGE
     ≤ JS.MAX_SAFE_INTEGER
   ∧ 1 ≤ 3 ≤ Data.fetchInvoicesPages (seq 0 14))
  ∧ let v :=
      Pagination.Pagination [("page", "3")] "/dashboard/invoices" 3
        (Data.fetchInvoicesPages (seq 0 14)) in
    (Pagination.isDisabled (Pagination.previous v) = false
     ↔ ∃ rows, Data.fetchFilteredInvoices (seq 0 14) (3 - 1) = Some rows
               ∧ rows ≠ [])
    ∧ (Pagination.isDisabled (Pagination.next v) = false
       ↔ ∃ rows, Data.fetchFilteredInvoices (seq 0 14) (3 + 1) = Some rows
                 ∧ rows ≠ []).
Proof.
  assert (Z.of_nat (length (seq 0 14)) + Data.ITEMS_PER_PAGE
          ≤ JS.MAX_SAFE_INTEGER) as Hcount.
  { unfold Data.ITEMS_PER_PAGE, JS.MAX_SAFE_INTEGER. cbn. lia. }
  assert (1 ≤ 3 ≤ Data.fetchInvoicesPages (seq 0 14)) as Hpage.
  { vm_compute. split; discriminate. }
  split; [by repeat split|].
  by apply (Pagination_arrows_lead_to_rows (seq 0 14)
              [("page", "3")] "/dashboard/invoices" 3).
Defined.

(** ** The key of the table *)

Lemma string_app_inv_tail (s1 s2 s : string) : s1 +:+ s = s2 +:+ s → s1 = s2.
Proof.
  intros Heq. apply (f_equal chars) in Heq.
  rewrite !chars_app in Heq. apply app_inv_tail in Heq.
  apply (f_equal Stdlib.Strings.String.string_of_list_ascii) in Heq.
  by rewrite !Stdlib.Strings.String.string_of_list_ascii_of_string in Heq.
Qed.

(** X19: the key of the [Suspense] boundary changes when the page changes
    under the same query, and when the query changes on the same page. *)
Theorem Suspense_key_changes (query1 query2 : string) (page1 page2 : Z) :
  (query1 = query2 → page1 ≠ page2 →
   Page.Suspense_key query1 page1 ≠ Page.Suspense_key query2 page2)
  ∧ (page1 = page2 → query1 ≠ query2 →
     Page.Suspense_key query1 page1 ≠ Page.Suspense_key query2 page2).
Proof.
  unfold Page.Suspense_key, JSString.Number_toString. split.
  - intros -> Hpage Heq. apply Hpage.
    by apply (inj (String.app query2)), (inj pretty) in Heq.
  - intros -> Hquery Heq. apply Hquery.
    by apply string_app_inv_tail in Heq.
Qed.

(** The key does not tell every pair of a query and a page from every
    other: the digits of the page follow the query without a separator. *)
Example Suspense_key_collision :
  Page.Suspense_key "a1" 2 = Page.Suspense_key "a" 12.
Proof. reflexivity. Qed.

(** * The function on binary64 numbers

    On the safe integers the operations of the function are exact, so that
    [Binary64.generatePagination] and [generatePagination] return the same
    window there; beyond [2^53] they are not. *)

(** ** Integers as binary64 numbers *)

(** The number of binary digits of a positive integer. *)
Lemma digits2_pos_bounds (p : positive) :
  2 ^ (Zpos (digits2_pos p) - 1) <= Zpos p < 2 ^ Zpos (digits2_pos p).
Proof.
  induction p as [p IH|p IH|]; cbn [digits2_pos]; [| |cbn; lia].
  all: rewrite Pos2Z.inj_succ.
  all: replace (Z.succ (Zpos (digits2_pos p)) - 1)
         with (Z.succ (Zpos (digits2_pos p) - 1)) by lia.
  all: rewrite !Z.pow_succ_r by lia.
  all: lia.
Qed.

Lemma digits2_pos_unique (p : positive) (d : Z) :
  2 ^ (d - 1) <= Zpos p < 2 ^ d -> Zpos (digits2_pos p) = d.
Proof.
  intros [Hlo Hhi]. pose proof (digits2_pos_bounds p) as [Hlo' Hhi'].
  assert (0 < d).
  { destruct (Z_lt_le_dec 0 d); [done|]. 
    destruct (Z.eq_dec d 0) as [->|]; [cbn in Hhi; lia|].
    rewrite Z.pow_neg_r in Hhi by lia. lia. }
  assert (d - 1 < Zpos (digits2_pos p)).
  { apply (Z.pow_lt_mono_r_iff 2); lia. }
  assert (Zpos (digits2_pos p) - 1 < d).
  { apply (Z.pow_lt_mono_r_iff 2); lia. }
  lia.
Qed.

Lemma iter_xO_value (p d : positive) :
  Zpos (Pos.iter xO p d) = Zpos p * 2 ^ Zpos d.
Proof.
  induction d as [|d IH] using Pos.peano_ind.
  - cbn. lia.
  - rewrite Pos.iter_succ, Pos2Z.inj_succ, Z.pow_succ_r by lia.
    change (Z.pos (Pos.iter xO p d)~0) with (2 * Z.pos (Pos.iter xO p d)). lia.
Qed.

Lemma iter_pos_iter {A} (f : A -> A) (n : positive) (x : A) :
  SpecFloat.iter_pos f n x = Pos.iter f x n.
Proof.
  revert x. induction n as [n IH|n IH|]; intros x; cbn.
  - rewrite !IH. by rewrite <- !Pos.iter_swap.
  - by rewrite !IH.
  - done.
Qed.

(** Shifting right the zeros a shift to the left brought loses nothing. *)
Lemma shr_exact (q d : positive) :
  SpecFloat.iter_pos shr_1 d
    {| shr_m := Zpos (Pos.iter xO q d); shr_r := false; shr_s := false |}
  = {| shr_m := Zpos q; shr_r := false; shr_s := false |}.
Proof.
  rewrite iter_pos_iter.
  induction d as [|d IH] using Pos.peano_ind; [done|].
  rewrite Pos.iter_succ_r, Pos.iter_succ. cbn [shr_1 orb]. apply IH.
Qed.

Lemma pow2_pos (k : Z) : 0 ≤ k → 0 < 2 ^ k.
Proof. intros. apply Z.pow_pos_nonneg; lia. Qed.

Lemma mantissa_value (q : positive) :
  Zpos (digits2_pos q) ≤ 53 →
  Zpos (Binary64.mantissa q) = Zpos q * 2 ^ (53 - Zpos (digits2_pos q)).
Proof.
  intros Hd. unfold Binary64.mantissa. rewrite Z2Pos.id; [done|].
  pose proof (pow2_pos (53 - Zpos (digits2_pos q))). lia.
Qed.

Lemma digits2_pos_shift (p q : positive) (K : Z) :
  0 ≤ K → Zpos p = Zpos q * 2 ^ K →
  Zpos (digits2_pos p) = Zpos (digits2_pos q) + K.
Proof.
  intros HK Hp. apply digits2_pos_unique. rewrite Hp.
  pose proof (digits2_pos_bounds q) as [Hlo Hhi].
  pose proof (pow2_pos K HK).
  replace (Zpos (digits2_pos q) + K - 1) with (Zpos (digits2_pos q) - 1 + K) by lia.
  rewrite !Z.pow_add_r by lia. nia.
Qed.

Lemma mantissa_digits (q : positive) :
  Zpos (digits2_pos q) ≤ 53 → Zpos (digits2_pos (Binary64.mantissa q)) = 53.
Proof.
  intros Hd.
  rewrite (digits2_pos_shift (Binary64.mantissa q) q (53 - Zpos (digits2_pos q)));
    [lia|lia|by apply mantissa_value].
Qed.

(** A mantissa of 53 digits is not rounded. *)
Lemma binary_round_aux_canonical (s : bool) (m : positive) (e : Z) :
  Zpos (digits2_pos m) = 53 → -1074 ≤ e ≤ 971 →
  binary_round_aux 53 1024 s (Zpos m) e loc_Exact = S754_finite s m e.
Proof.
  intros Hd He. unfold binary_round_aux, shr_fexp, fexp, emin.
  cbn [Zdigits2 shr_record_of_loc]. rewrite Hd.
  replace (Z.max (53 + e - 53) (3 - 1024 - 53) - e) with 0 by lia.
  cbn [shr shr_m loc_of_shr_record round_nearest_even Zdigits2 shr_record_of_loc].
  rewrite Hd.
  replace (Z.max (53 + e - 53) (3 - 1024 - 53) - e) with 0 by lia.
  cbn [shr shr_m]. 
  destruct (Z.leb_spec e (1024 - 53)); [done|lia].
Qed.

(** Rounding [q * 2^K * 2^(-K)], an integer of at most 53 digits, gives the
    number of [q], however the integer is scaled. *)
Lemma binary_round_exact (s : bool) (p q : positive) (K : Z) :
  0 ≤ K → Zpos p = Zpos q * 2 ^ K → Zpos (digits2_pos q) ≤ 53 →
  binary_round 53 1024 s p (- K) = Binary64.canonical s q.
Proof.
  intros HK Hp Hq.
  pose proof (digits2_pos_shift p q K HK Hp) as Hdp.
  pose proof (mantissa_value q Hq) as Hm.
  pose proof (mantissa_digits q Hq) as Hmd.
  assert (1 ≤ Zpos (digits2_pos q)) as Hq1 by lia.
  unfold binary_round. rewrite Hdp.
  unfold fexp at 1, emin.
  replace (Z.max (Zpos (digits2_pos q) + K + - K - 53) (3 - 1024 - 53))
    with (Zpos (digits2_pos q) - 53) by lia.
  unfold shl_align.
  destruct (Zpos (digits2_pos q) - 53 - - K) as [|d|d] eqn:Hδ.
  - assert (p = Binary64.mantissa q) as ->.
    { apply Pos2Z.inj. rewrite Hp, Hm. f_equal. f_equal. lia. }
    rewrite binary_round_aux_canonical by lia.
    unfold Binary64.canonical. f_equal. lia.
  - assert (p = Pos.iter xO (Binary64.mantissa q) d) as ->.
    { apply Pos2Z.inj. rewrite iter_xO_value, Hp, Hm.
      rewrite <- Z.mul_assoc, <- Z.pow_add_r by lia. do 2 f_equal. lia. }
    unfold binary_round_aux, shr_fexp. cbn [Zdigits2 shr_record_of_loc].
    rewrite (digits2_pos_shift _ (Binary64.mantissa q) (Zpos d))
      by (lia || apply iter_xO_value).
    rewrite Hmd. unfold fexp at 1, emin.
    replace (Z.max (53 + Zpos d + - K - 53) (3 - 1024 - 53) - - K)
      with (Zpos d) by lia.
    cbn [shr]. rewrite shr_exact.
    cbn [shr_m loc_of_shr_record round_nearest_even Zdigits2 shr_record_of_loc].
    rewrite Hmd. unfold fexp, emin.
    replace (Z.max (53 + (- K + Zpos d) - 53) (3 - 1024 - 53) - (- K + Zpos d))
      with 0 by lia.
    cbn [shr shr_m].
    destruct (Z.leb_spec (- K + Zpos d) (1024 - 53)); [|lia].
    unfold Binary64.canonical. f_equal. lia.
  - assert (Pos.iter xO p d = Binary64.mantissa q) as ->.
    { apply Pos2Z.inj. rewrite iter_xO_value, Hp, Hm.
      rewrite <- Z.mul_assoc, <- Z.pow_add_r by lia. do 2 f_equal. lia. }
    rewrite binary_round_aux_canonical by lia. done.
Qed.

Lemma digits2_pos_safe (q : positive) :
  Zpos q < 2 ^ 53 → Zpos (digits2_pos q) ≤ 53.
Proof.
  intros Hq. pose proof (digits2_pos_bounds q) as [Hlo _].
  destruct (Z_le_gt_dec (Zpos (digits2_pos q)) 53) as [|Hgt]; [done|].
  assert (2 ^ 53 ≤ 2 ^ (Zpos (digits2_pos q) - 1)).
  { apply Z.pow_le_mono_r; lia. }
  lia.
Qed.

Lemma of_Z_pos (q : positive) :
  Zpos q < 2 ^ 53 → Binary64.of_Z (Zpos q) = Binary64.canonical false q.
Proof.
  intros Hq. unfold Binary64.of_Z, Binary64.prec, Binary64.emax, binary_normalize.
  apply (binary_round_exact false q q 0); [lia|lia|by apply digits2_pos_safe].
Qed.

Lemma of_Z_neg (q : positive) :
  Zpos q < 2 ^ 53 → Binary64.of_Z (Zneg q) = Binary64.canonical true q.
Proof.
  intros Hq. unfold Binary64.of_Z, Binary64.prec, Binary64.emax, binary_normalize.
  apply (binary_round_exact true q q 0); [lia|lia|by apply digits2_pos_safe].
Qed.

Lemma to_Z_canonical (s : bool) (q : positive) :
  Zpos q < 2 ^ 53 →
  Binary64.to_Z (Binary64.canonical s q) = Some (cond_Zopp s (Zpos q)).
Proof.
  intros Hq. pose proof (digits2_pos_safe q Hq) as Hd.
  unfold Binary64.canonical, Binary64.to_Z. rewrite mantissa_value by done.
  destruct (Z.leb_spec 0 (Zpos (digits2_pos q) - 53)) as [He|He].
  - replace (Zpos (digits2_pos q)) with 53 by lia. cbn. do 2 f_equal. lia.
  - replace (- (Zpos (digits2_pos q) - 53)) with (53 - Zpos (digits2_pos q)) by lia.
    pose proof (pow2_pos (53 - Zpos (digits2_pos q))).
    rewrite Z.mod_mul, Z.div_mul by lia. done.
Qed.

Lemma to_Z_of_Z (z : Z) :
  - 2 ^ 53 < z < 2 ^ 53 → Binary64.to_Z (Binary64.of_Z z) = Some z.
Proof.
  intros Hz. destruct z as [|q|q]; [done|..].
  - rewrite of_Z_pos, to_Z_canonical by lia. done.
  - rewrite of_Z_neg, to_Z_canonical by lia. done.
Qed.

Lemma shl_align_value (m : positive) (e e' : Z) :
  e' ≤ e → Zpos (fst (shl_align m e e')) = Zpos m * 2 ^ (e - e').
Proof.
  intros He. unfold shl_align. destruct (e' - e) as [|d|d] eqn:Hd.
  - replace (e - e') with 0 by lia. cbn [fst]. lia.
  - lia.
  - cbn [fst]. rewrite iter_xO_value. do 2 f_equal. lia.
Qed.

Lemma canonical_aligned (q : positive) (ez : Z) :
  Zpos q < 2 ^ 53 → ez ≤ Zpos (digits2_pos q) - 53 →
  Zpos (fst (shl_align (Binary64.mantissa q) (Zpos (digits2_pos q) - 53) ez))
  = Zpos q * 2 ^ (- ez).
Proof.
  intros Hq Hez. pose proof (digits2_pos_safe q Hq) as Hd.
  rewrite shl_align_value, mantissa_value by done.
  rewrite <- Z.mul_assoc, <- Z.pow_add_r by lia. do 2 f_equal. lia.
Qed.

(** Below [2^53] subtraction, addition and comparison of positive integers
    are those of the integers. *)
Lemma sub_of_Z (a b : Z) :
  0 < b → b < a → a < 2 ^ 53 →
  Binary64.sub (Binary64.of_Z a) (Binary64.of_Z b) = Binary64.of_Z (a - b).
Proof.
  intros Hb Hab Ha.
  destruct a as [|qa|qa]; [lia| |lia]. destruct b as [|qb|qb]; [lia| |lia].
  destruct (Zpos qa - Zpos qb) as [|qv|qv] eqn:Hv; [lia| |lia].
  rewrite !of_Z_pos by lia. remember (Binary64.canonical false qv) as r eqn:Hr.
  unfold Binary64.sub, Binary64.prec, Binary64.emax, SFsub, Binary64.canonical.
  lazy beta iota zeta.
  set (ez := Z.min _ _). cbn [cond_Zopp].
  rewrite !canonical_aligned by lia.
  assert (0 ≤ - ez) as HK.
  { pose proof (digits2_pos_safe qa). pose proof (digits2_pos_safe qb). lia. }
  pose proof (pow2_pos (- ez) HK).
  rewrite <- Z.mul_sub_distr_r, Hv.
  destruct (Zpos qv * 2 ^ (- ez)) as [|p|p] eqn:Hp; [lia| |lia].
  unfold binary_normalize. rewrite <- (Z.opp_involutive ez). subst r.
  apply (binary_round_exact false p qv (- ez)); [done|lia|].
  apply digits2_pos_safe. lia.
Qed.

Lemma add_of_Z (a b : Z) :
  0 < a → 0 < b → a + b < 2 ^ 53 →
  Binary64.add (Binary64.of_Z a) (Binary64.of_Z b) = Binary64.of_Z (a + b).
Proof.
  intros Ha Hb Hab.
  destruct a as [|qa|qa]; [lia| |lia]. destruct b as [|qb|qb]; [lia| |lia].
  destruct (Zpos qa + Zpos qb) as [|qv|qv] eqn:Hv; [lia| |lia].
  rewrite !of_Z_pos by lia. remember (Binary64.canonical false qv) as r eqn:Hr.
  unfold Binary64.add, Binary64.prec, Binary64.emax, SFadd, Binary64.canonical.
  lazy beta iota zeta.
  set (ez := Z.min _ _). cbn [cond_Zopp].
  rewrite !canonical_aligned by lia.
  assert (0 ≤ - ez) as HK.
  { pose proof (digits2_pos_safe qa). pose proof (digits2_pos_safe qb). lia. }
  pose proof (pow2_pos (- ez) HK).
  rewrite <- Z.mul_add_distr_r, Hv.
  destruct (Zpos qv * 2 ^ (- ez)) as [|p|p] eqn:Hp; [lia| |lia].
  unfold binary_normalize. rewrite <- (Z.opp_involutive ez). subst r.
  apply (binary_round_exact false p qv (- ez)); [done|lia|].
  apply digits2_pos_safe. lia.
Qed.

Lemma canonical_compare (qa qb : positive) :
  Zpos qa < 2 ^ 53 → Zpos qb < 2 ^ 53 →
  match Zpos (digits2_pos qa) - 53 ?= Zpos (digits2_pos qb) - 53 with
  | Eq => Pos.compare_cont Eq (Binary64.mantissa qa) (Binary64.mantissa qb)
  | Lt => Lt
  | Gt => Gt
  end = (Zpos qa ?= Zpos qb).
Proof.
  intros Ha Hb.
  pose proof (digits2_pos_safe qa Ha) as Hda.
  pose proof (digits2_pos_safe qb Hb) as Hdb.
  pose proof (digits2_pos_bounds qa) as [Hla Hha].
  pose proof (digits2_pos_bounds qb) as [Hlb Hhb].
  destruct (Z.compare_spec (Zpos (digits2_pos qa) - 53) (Zpos (digits2_pos qb) - 53))
    as [Heq|Hlt|Hgt].
  - change (Pos.compare_cont Eq (Binary64.mantissa qa) (Binary64.mantissa qb))
      with (Zpos (Binary64.mantissa qa) ?= Zpos (Binary64.mantissa qb)).
    rewrite !mantissa_value by done.
    replace (Zpos (digits2_pos qb)) with (Zpos (digits2_pos qa)) by lia.
    pose proof (pow2_pos (53 - Zpos (digits2_pos qa)) ltac:(lia)) as Hk.
    destruct (Z.compare_spec (Zpos qa) (Zpos qb));
      [apply Z.compare_eq_iff|apply Z.compare_lt_iff|apply Z.compare_gt_iff];
      nia.
  - symmetry. apply Z.compare_lt_iff.
    assert (2 ^ Zpos (digits2_pos qa) ≤ 2 ^ (Zpos (digits2_pos qb) - 1)).
    { apply Z.pow_le_mono_r; lia. }
    lia.
  - symmetry. apply Z.compare_gt_iff.
    assert (2 ^ Zpos (digits2_pos qb) ≤ 2 ^ (Zpos (digits2_pos qa) - 1)).
    { apply Z.pow_le_mono_r; lia. }
    lia.
Qed.

Lemma compare_of_Z (a b : Z) :
  - 2 ^ 53 < a < 2 ^ 53 → - 2 ^ 53 < b < 2 ^ 53 →
  SFcompare (Binary64.of_Z a) (Binary64.of_Z b) = Some (a ?= b).
Proof.
  intros Ha Hb.
  destruct a as [|qa|qa], b as [|qb|qb];
    rewrite ?of_Z_pos, ?of_Z_neg by lia; try reflexivity.
  - unfold Binary64.canonical, SFcompare. f_equal. apply canonical_compare; lia.
  - unfold Binary64.canonical, SFcompare. f_equal.
    change (Zneg qa ?= Zneg qb) with (CompOpp (Zpos qa ?= Zpos qb)).
    rewrite <- (canonical_compare qa qb) by lia.
    by destruct (_ ?= _).
Qed.

Lemma leb_of_Z (a b : Z) :
  - 2 ^ 53 < a < 2 ^ 53 → - 2 ^ 53 < b < 2 ^ 53 →
  Binary64.leb (Binary64.of_Z a) (Binary64.of_Z b) = (a <=? b).
Proof.
  intros Ha Hb. unfold Binary64.leb, SFleb, Z.leb. rewrite compare_of_Z by done.
  by destruct (a ?= b).
Qed.

Lemma ToLength_of_Z (t : Z) :
  - 2 ^ 53 < t → t ≤ 7 → Binary64.ToLength (Binary64.of_Z t) = Z.max 0 t.
Proof.
  intros Hlo Hhi. destruct (Z_le_gt_dec t 0) as [Ht|Ht].
  - destruct t as [|q|q]; [done|lia|]. by rewrite of_Z_neg by lia.
  - assert (t = 1 ∨ t = 2 ∨ t = 3 ∨ t = 4 ∨ t = 5 ∨ t = 6 ∨ t = 7)
      as [->|[->|[->|[->|[->|[->| ->]]]]]] by lia; reflexivity.
Qed.

(** ** The two embeddings agree on the safe integers *)

Ltac safe_bounds := unfold Binary64.safe, JS.MAX_SAFE_INTEGER in *.

Lemma exact_entry_of_Z (z : Z) :
  Binary64.safe z →
  Binary64.exact_entry (Binary64.Num (Binary64.of_Z z)) = Some (LNum z).
Proof.
  intros Hz. safe_bounds. cbn [Binary64.exact_entry].
  by rewrite to_Z_of_Z by lia.
Qed.

(** Entry by entry: the numbers are those of the integers, the strings are
    the same. *)
Ltac exact_entries :=
  apply mapM_Some_2;
  repeat match goal with |- Forall2 _ _ _ => constructor end;
  first [ apply exact_entry_of_Z; safe_bounds; lia | reflexivity ].

(** On safe integers the program returns the window computed with the
    arithmetic of the integers. *)
Lemma generatePagination_exact (c t : Z) :
  Binary64.safe c → Binary64.safe t →
  Binary64.exact_window
    (Binary64.generatePagination (Binary64.of_Z c) (Binary64.of_Z t))
  = Some (generatePagination c t).
Proof.
  intros Hc Ht. unfold Binary64.exact_window. safe_bounds.
  destruct (Z_le_gt_dec t 0) as [Ht0|Ht0].
  { rewrite generatePagination_small, (seqZ_nil 1 t) by lia.
    unfold Binary64.generatePagination, Binary64.Array_from.
    rewrite leb_of_Z by lia. destruct (Z.leb_spec t 7); [|lia].
    rewrite ToLength_of_Z by lia.
    replace (Z.max 0 t) with 0 by lia. reflexivity. }
  destruct (Z_le_gt_dec t 7) as [Ht7|Ht7].
  { assert (t = 1 ∨ t = 2 ∨ t = 3 ∨ t = 4 ∨ t = 5 ∨ t = 6 ∨ t = 7)
      as [->|[->|[->|[->|[->|[->| ->]]]]]] by lia; vm_compute; reflexivity. }
  unfold Binary64.generatePagination, Binary64.geb.
  rewrite (leb_of_Z t 7) by lia. destruct (Z.leb_spec t 7); [lia|].
  rewrite (leb_of_Z c 3) by lia. destruct (Z.leb_spec c 3).
  { rewrite generatePagination_start, (sub_of_Z t 1) by lia. exact_entries. }
  rewrite (sub_of_Z t 2), (sub_of_Z t 1), (leb_of_Z (t - 2) c) by lia.
  destruct (Z.leb_spec (t - 2) c).
  { rewrite generatePagination_end by lia. exact_entries. }
  rewrite generatePagination_middle by lia.
  rewrite (sub_of_Z c 1), (add_of_Z c 1) by lia. exact_entries.
Qed.

Lemma generatePagination_exact_length (c t : Z) :
  Binary64.safe c → Binary64.safe t →
  length (Binary64.generatePagination (Binary64.of_Z c) (Binary64.of_Z t))
  = length (generatePagination c t).
Proof.
  intros Hc Ht.
  apply (length_mapM Binary64.exact_entry), generatePagination_exact; done.
Qed.

(** ** Windows of more than seven pages *)

(** C2, corrected: for [7 < totalPages <= 2^53 - 1] and
    [1 <= currentPage <= 3] the result is
    [[1, 2, 3, ellipsis, totalPages - 1, totalPages]]. *)
Theorem near_start_window_safe (c t : Z) :
  7 < t ≤ JS.MAX_SAFE_INTEGER → 1 ≤ c ≤ 3 →
  Binary64.exact_window
    (Binary64.generatePagination (Binary64.of_Z c) (Binary64.of_Z t))
  = Some [LNum 1; LNum 2; LNum 3; ellipsis; LNum (t - 1); LNum t].
Proof.
  intros Ht Hc. rewrite generatePagination_exact by (safe_bounds; lia).
  by rewrite generatePagination_start by lia.
Qed.

Lemma near_start_window_safe_witness :
  (7 < 10 ≤ JS.MAX_SAFE_INTEGER ∧ 1 ≤ 3 ≤ 3)
  ∧ Binary64.exact_window
      (Binary64.generatePagination (Binary64.of_Z 3) (Binary64.of_Z 10))
    = Some [LNum 1; LNum 2; LNum 3; ellipsis; LNum (10 - 1); LNum 10].
Proof.
  split; [unfold JS.MAX_SAFE_INTEGER; lia|].
  apply (near_start_window_safe 3 10); unfold JS.MAX_SAFE_INTEGER; lia.
Defined.

(** Without the bound the claim fails: [2^53 + 2] is a number,
    [2^53 + 1] is not, and [(2^53 + 2) - 1] is [2^53]. *)
Lemma near_start_window_counterexample :
  (7 < 2 ^ 53 + 2 ∧ 1 ≤ 1 ≤ 3)
  ∧ Binary64.to_Z (Binary64.of_Z (2 ^ 53 + 2)) = Some (2 ^ 53 + 2)
  ∧ Binary64.exact_window
      (Binary64.generatePagination
         (Binary64.of_Z 1) (Binary64.of_Z (2 ^ 53 + 2)))
    = Some [LNum 1; LNum 2; LNum 3; ellipsis;
            LNum (2 ^ 53); LNum (2 ^ 53 + 2)]
  ∧ Binary64.exact_window
      (Binary64.generatePagination
         (Binary64.of_Z 1) (Binary64.of_Z (2 ^ 53 + 2)))
    ≠ Some [LNum 1; LNum 2; LNum 3; ellipsis;
            LNum (2 ^ 53 + 2 - 1); LNum (2 ^ 53 + 2)].
Proof. vm_compute. repeat split; (reflexivity || discriminate). Qed.

(** C3, corrected: for [7 < totalPages <= 2^53 - 1], [currentPage > 3] and
    [totalPages - 2 <= currentPage <= totalPages] the result is
    [[1, 2, ellipsis, totalPages - 2, totalPages - 1, totalPages]]. *)
Theorem near_end_window_safe (c t : Z) :
  7 < t ≤ JS.MAX_SAFE_INTEGER → t - 2 ≤ c ≤ t → 3 < c →
  Binary64.exact_window
    (Binary64.generatePagination (Binary64.of_Z c) (Binary64.of_Z t))
  = Some [LNum 1; LNum 2; ellipsis; LNum (t - 2); LNum (t - 1); LNum t].
Proof.
  intros Ht Hct Hc. rewrite generatePagination_exact by (safe_bounds; lia).
  by rewrite generatePagination_end by lia.
Qed.

Lemma near_end_window_safe_witness :
  (7 < 10 ≤ JS.MAX_SAFE_INTEGER ∧ 10 - 2 ≤ 9 ≤ 10 ∧ 3 < 9)
  ∧ Binary64.exact_window
      (Binary64.generatePagination (Binary64.of_Z 9) (Binary64.of_Z 10))
    = Some [LNum 1; LNum 2; ellipsis; LNum (10 - 2); LNum (10 - 1); LNum 10].
Proof.
  split; [unfold JS.MAX_SAFE_INTEGER; lia|].
  apply (near_end_window_safe 9 10); unfold JS.MAX_SAFE_INTEGER; lia.
Defined.

(** Without the bound the claim fails: on the last page of [2^53 + 2] pages
    the labels before the last are [2^53] twice. *)
Lemma near_end_window_counterexample :
  (7 < 2 ^ 53 + 2 ∧ 2 ^ 53 + 2 - 2 ≤ 2 ^ 53 + 2 ≤ 2 ^ 53 + 2
   ∧ 3 < 2 ^ 53 + 2)
  ∧ Binary64.to_Z (Binary64.of_Z (2 ^ 53 + 2)) = Some (2 ^ 53 + 2)
  ∧ Binary64.exact_window
      (Binary64.generatePagination
         (Binary64.of_Z (2 ^ 53 + 2)) (Binary64.of_Z (2 ^ 53 + 2)))
    = Some [LNum 1; LNum 2; ellipsis;
            LNum (2 ^ 53); LNum (2 ^ 53); LNum (2 ^ 53 + 2)]
  ∧ Binary64.exact_window
      (Binary64.generatePagination
         (Binary64.of_Z (2 ^ 53 + 2)) (Binary64.of_Z (2 ^ 53 + 2)))
    ≠ Some [LNum 1; LNum 2; ellipsis; LNum (2 ^ 53 + 2 - 2);
            LNum (2 ^ 53 + 2 - 1); LNum (2 ^ 53 + 2)].
Proof. vm_compute. repeat split; (reflexivity || discriminate). Qed.

(** C4, corrected: for [7 < totalPages <= 2^53 - 1] and
    [3 < currentPage < totalPages - 2] the result is [[1, ellipsis,
    currentPage - 1, currentPage, currentPage + 1, ellipsis, totalPages]]. *)
Theorem middle_window_safe (c t : Z) :
  7 < t ≤ JS.MAX_SAFE_INTEGER → 3 < c < t - 2 →
  Binary64.exact_window
    (Binary64.generatePagination (Binary64.of_Z c) (Binary64.of_Z t))
  = Some [LNum 1; ellipsis; LNum (c - 1); LNum c; LNum (c + 1); ellipsis;
          LNum t].
Proof.
  intros Ht Hc. rewrite generatePagination_exact by (safe_bounds; lia).
  by rewrite generatePagination_middle by lia.
Qed.

Lemma middle_window_safe_witness :
  (7 < 10 ≤ JS.MAX_SAFE_INTEGER ∧ 3 < 5 < 10 - 2)
  ∧ Binary64.exact_window
      (Binary64.generatePagination (Binary64.of_Z 5) (Binary64.of_Z 10))
    = Some [LNum 1; ellipsis; LNum (5 - 1); LNum 5; LNum (5 + 1); ellipsis;
            LNum 10].
Proof.
  split; [unfold JS.MAX_SAFE_INTEGER; lia|].
  apply (middle_window_safe 5 10); unfold JS.MAX_SAFE_INTEGER; lia.
Defined.

(** Without the bound the claim fails: for [2^54 + 4] pages
    [totalPages - 2] is [2^54], so that page [2^54], which is below
    [totalPages - 2] among the integers, gets the window of the last
    pages. *)
Lemma middle_window_counterexample :
  (7 < 2 ^ 54 + 4 ∧ 3 < 2 ^ 54 < 2 ^ 54 + 4 - 2)
  ∧ Binary64.to_Z (Binary64.of_Z (2 ^ 54)) = Some (2 ^ 54)
  ∧ Binary64.to_Z (Binary64.of_Z (2 ^ 54 + 4)) = Some (2 ^ 54 + 4)
  ∧ Binary64.exact_window
      (Binary64.generatePagination
         (Binary64.of_Z (2 ^ 54)) (Binary64.of_Z (2 ^ 54 + 4)))
    = Some [LNum 1; LNum 2; ellipsis;
            LNum (2 ^ 54); LNum (2 ^ 54 + 4); LNum (2 ^ 54 + 4)]
  ∧ Binary64.exact_window
      (Binary64.generatePagination
         (Binary64.of_Z (2 ^ 54)) (Binary64.of_Z (2 ^ 54 + 4)))
    ≠ Some [LNum 1; ellipsis; LNum (2 ^ 54 - 1); LNum (2 ^ 54);
            LNum (2 ^ 54 + 1); ellipsis; LNum (2 ^ 54 + 4)].
Proof. vm_compute. repeat split; (reflexivity || discriminate). Qed.

(** C5, corrected: for [7 < totalPages <= 2^53 - 1] and [currentPage] in
    [1, totalPages] the result has six labels when [currentPage <= 3] or
    [currentPage >= totalPages - 2] and seven otherwise; it never has more
    than seven. *)
Theorem window_length_safe (c t : Z) :
  7 < t ≤ JS.MAX_SAFE_INTEGER → 1 ≤ c ≤ t →
  let w := Binary64.generatePagination (Binary64.of_Z c) (Binary64.of_Z t) in
  (c ≤ 3 ∨ c >= t - 2 → length w = 6%nat)
  ∧ (¬ (c ≤ 3 ∨ c >= t - 2) → length w = 7%nat)
  ∧ (length w ≤ 7)%nat.
Proof.
  intros Ht Hc. cbn zeta.
  rewrite generatePagination_exact_length by (safe_bounds; lia).
  window_cases c t; [lia|..]; cbn; repeat split; lia.
Qed.

Lemma window_length_safe_witness :
  (7 < 20 ≤ JS.MAX_SAFE_INTEGER ∧ 1 ≤ 18 ≤ 20)
  ∧ let w :=
      Binary64.generatePagination (Binary64.of_Z 18) (Binary64.of_Z 20) in
    (18 ≤ 3 ∨ 18 >= 20 - 2 → length w = 6%nat)
    ∧ (¬ (18 ≤ 3 ∨ 18 >= 20 - 2) → length w = 7%nat)
    ∧ (length w ≤ 7)%nat.
Proof.
  split; [unfold JS.MAX_SAFE_INTEGER; lia|].
  apply (window_length_safe 18 20); unfold JS.MAX_SAFE_INTEGER; lia.
Defined.

(** Without the bound the claim fails: page [2^54] of [2^54 + 4] pages is
    neither among the first three nor, among the integers, at
    [totalPages - 2] or beyond, and the window has six labels. *)
Lemma window_length_counterexample :
  (7 < 2 ^ 54 + 4 ∧ 1 ≤ 2 ^ 54 ≤ 2 ^ 54 + 4)
  ∧ ¬ (2 ^ 54 ≤ 3 ∨ 2 ^ 54 >= 2 ^ 54 + 4 - 2)
  ∧ Binary64.to_Z (Binary64.of_Z (2 ^ 54)) = Some (2 ^ 54)
  ∧ Binary64.to_Z (Binary64.of_Z (2 ^ 54 + 4)) = Some (2 ^ 54 + 4)
  ∧ length (Binary64.generatePagination
              (Binary64.of_Z (2 ^ 54)) (Binary64.of_Z (2 ^ 54 + 4)))
    = 6%nat
  ∧ length (Binary64.generatePagination
              (Binary64.of_Z (2 ^ 54)) (Binary64.of_Z (2 ^ 54 + 4)))
    ≠ 7%nat.
Proof.
  split; [lia|]. split; [lia|].
  vm_compute. repeat split; (reflexivity || discriminate).
Qed.

(** ** Invariants of the windows of safe integers *)

(** C7, corrected: for [1 <= totalPages <= 2^53 - 1] and [currentPage] in
    [1, totalPages] the numeric labels, read from left to right, increase
    strictly, each of them lies in [1, totalPages], and no two ellipsis
    markers are adjacent. *)
Theorem window_well_formed_safe (c t : Z) :
  1 ≤ t ≤ JS.MAX_SAFE_INTEGER → 1 ≤ c ≤ t →
  ∃ w,
    Binary64.exact_window
      (Binary64.generatePagination (Binary64.of_Z c) (Binary64.of_Z t))
    = Some w
    ∧ StronglySorted Z.lt (page_numbers w)
    ∧ Forall (λ n, 1 ≤ n ≤ t) (page_numbers w)
    ∧ ¬ adjacent_ellipses w.
Proof.
  intros Ht Hc. exists (generatePagination c t).
  split; [apply generatePagination_exact; safe_bounds; lia|].
  split; [apply window_numbers_sorted|].
  split; [apply window_numbers_bounds|apply window_no_pair].
Qed.

Lemma window_well_formed_safe_witness :
  (1 ≤ 12 ≤ JS.MAX_SAFE_INTEGER ∧ 1 ≤ 6 ≤ 12)
  ∧ ∃ w,
      Binary64.exact_window
        (Binary64.generatePagination (Binary64.of_Z 6) (Binary64.of_Z 12))
      = Some w
      ∧ StronglySorted Z.lt (page_numbers w)
      ∧ Forall (λ n, 1 ≤ n ≤ 12) (page_numbers w)
      ∧ ¬ adjacent_ellipses w.
Proof.
  split; [unfold JS.MAX_SAFE_INTEGER; lia|].
  apply (window_well_formed_safe 6 12); unfold JS.MAX_SAFE_INTEGER; lia.
Defined.

(** Without the bound the claim fails: on the last page of [2^53 + 2] pages
    the numeric labels are [1, 2, 2^53, 2^53, 2^53 + 2], where [2^53] comes
    twice. *)
Lemma window_well_formed_counterexample :
  (1 ≤ 2 ^ 53 + 2 ∧ 1 ≤ 2 ^ 53 + 2 ≤ 2 ^ 53 + 2)
  ∧ Binary64.to_Z (Binary64.of_Z (2 ^ 53 + 2)) = Some (2 ^ 53 + 2)
  ∧ ∃ w,
      Binary64.exact_window
        (Binary64.generatePagination
           (Binary64.of_Z (2 ^ 53 + 2)) (Binary64.of_Z (2 ^ 53 + 2)))
      = Some w
      ∧ page_numbers w = [1; 2; 2 ^ 53; 2 ^ 53; 2 ^ 53 + 2]
      ∧ ¬ StronglySorted Z.lt (page_numbers w).
Proof.
  split; [lia|]. split; [by vm_compute|].
  eexists. split; [by vm_compute|]. split; [by vm_compute|].
  intros Hsorted.
  apply StronglySorted_inv in Hsorted as [Hsorted _].
  apply StronglySorted_inv in Hsorted as [Hsorted _].
  apply StronglySorted_inv in Hsorted as [_ Hlt].
  apply Forall_cons in Hlt as [Hlt _]. vm_compute in Hlt. discriminate Hlt.
Qed.

(** X8: the invariants do not need a current page in range: for every safe
    integer [currentPage] and [1 <= totalPages <= 2^53 - 1] the window
    starts with [1], ends with [totalPages], has strictly increasing
    numbers, all in [1, totalPages], and no two adjacent ellipsis
    markers. *)
Theorem window_invariants_any_page (c t : Z) :
  Binary64.safe c → 1 ≤ t ≤ JS.MAX_SAFE_INTEGER →
  ∃ w,
    Binary64.exact_window
      (Binary64.generatePagination (Binary64.of_Z c) (Binary64.of_Z t))
    = Some w
    ∧ head w = Some (LNum 1)
    ∧ last w = Some (LNum t)
    ∧ StronglySorted Z.lt (page_numbers w)
    ∧ Forall (λ n, 1 ≤ n ≤ t) (page_numbers w)
    ∧ ¬ adjacent_ellipses w.
Proof.
  intros Hc Ht. exists (generatePagination c t).
  split; [apply generatePagination_exact; safe_bounds; lia|].
  split; [apply window_head; lia|]. split; [apply window_last; lia|].
  split; [apply window_numbers_sorted|].
  split; [apply window_numbers_bounds|apply window_no_pair].
Qed.

Lemma window_invariants_any_page_witness :
  (Binary64.safe 99 ∧ 1 ≤ 10 ≤ JS.MAX_SAFE_INTEGER)
  ∧ ∃ w,
      Binary64.exact_window
        (Binary64.generatePagination (Binary64.of_Z 99) (Binary64.of_Z 10))
      = Some w
      ∧ head w = Some (LNum 1)
      ∧ last w = Some (LNum 10)
      ∧ StronglySorted Z.lt (page_numbers w)
      ∧ Forall (λ n, 1 ≤ n ≤ 10) (page_numbers w)
      ∧ ¬ adjacent_ellipses w.
Proof.
  assert (Binary64.safe 99) as Hc by (safe_bounds; lia).
  assert (1 ≤ 10 ≤ JS.MAX_SAFE_INTEGER) as Ht by (safe_bounds; lia).
  split; [done|]. by apply (window_invariants_any_page 99 10).
Defined.
